(** * Locale-resolved content delivery of the NewSite portfolio

    A shallow embedding of the logic of the portfolio site: the request
    locale resolver, the lookups into the static content, the category
    filter of the projects section, the project detail page's slug lookup,
    the WhatsApp link builder and the typed-text animation, and with them
    the other helpers of utils.ts, the contact form's link, the static
    parameters and metadata of the project pages, the sitemap and the
    lightbox of the gallery.

    Part I holds the embedding, one module per source file; Part II holds
    the theorems on the specification's claims; Part III holds further
    properties of the code. *)

From Stdlib Require Import String Ascii List NArith ZArith Bool Lia.
From Stdlib Require Import DecimalString.
From Stdlib Require QArith.
From stdpp Require Import base option list strings gmap.

Open Scope string_scope.

(** * Part I: the embedding *)

(** ** JavaScript values

    [undefined] is [None].  An object used as a dictionary is a [gmap] keyed
    by strings, which holds its own properties: [o !! key] reads one under a
    key of the object's type, and [get o key] reads [o[key]] under an
    arbitrary string, where the names inherited from [Object.prototype]
    show.  Identifiers that the code only compares (locale
    codes, slugs, category keys) are [string]s; text that the code measures,
    slices or encodes is a sequence of UTF-16 code units, [list N]. *)
Module Js.

Inductive exn : Type :=
| TypeError      (* property read on undefined *)
| URIError       (* encodeURIComponent on a lone surrogate *)
| NotFoundError. (* thrown by next/navigation's notFound() *)

Inductive result (A : Type) : Type :=
| Return (a : A)
| Throw (e : exn).
Arguments Return {A} a.
Arguments Throw {A} e.

(** ToBoolean on strings, arrays and objects. *)
Definition truthy_string (s : string) : bool := negb (String.eqb s "").
Definition truthy_object {A : Type} (_ : A) : bool := true.

(** [a || b], where [truthy] is ToBoolean on the defined values. *)
Definition or {T : Type} (truthy : T -> bool) (a b : option T) : option T :=
  match a with
  | Some v => if truthy v then a else b
  | None => b
  end.

(** [xs.includes(x)] on an array of strings. *)
Definition includes (xs : list string) (x : string) : bool :=
  existsb (String.eqb x) xs.

(** [xs.find(p)]. *)
Definition find {A : Type} (p : A -> bool) (xs : list A) : option A :=
  List.find p xs.

(** Code units of a literal whose characters are below U+0100. *)
Definition lit (s : string) : list N :=
  List.map N_of_ascii (list_ascii_of_string s).

(** The names that every object literal and every parsed JSON object
    inherits from [Object.prototype]. *)
Definition prototype_names : list string :=
  ["constructor"; "__defineGetter__"; "__defineSetter__"; "hasOwnProperty";
   "__lookupGetter__"; "__lookupSetter__"; "isPrototypeOf";
   "propertyIsEnumerable"; "toString"; "valueOf"; "__proto__";
   "toLocaleString"].

(** The value of [o[key]] for an arbitrary string [key]: the object's own
    entry, or what [Object.prototype] holds under that name (a function, or
    the prototype itself for [__proto__]), or [undefined]. *)
Inductive property (T : Type) : Type :=
| Own (v : T)
| Inherited (name : string)
| Undefined.
Arguments Own {T} v.
Arguments Inherited {T} name.
Arguments Undefined {T}.

Definition get {T : Type} (o : gmap string T) (key : string) : property T :=
  match o !! key with
  | Some v => Own v
  | None => if includes prototype_names key then Inherited key else Undefined
  end.

(** [a || b] on such values: what is inherited is a function or an object,
    hence truthy. *)
Definition por {T : Type} (truthy : T -> bool) (a b : property T)
  : property T :=
  match a with
  | Own v => if truthy v then a else b
  | Inherited _ => a
  | Undefined => b
  end.

End Js.

(** ** src/i18n/request.ts *)
Module Request.

Definition locales : list string := ["es"].

Record RequestConfig : Type := {
  locale : string;
  messages : string  (* the module imported for the messages *)
}.

Definition getRequestConfig (requestLocale : option string) : RequestConfig :=
  let locale :=
    match requestLocale with
    | Some l =>
        if negb (Js.truthy_string l) || negb (Js.includes locales l)
        then "es" else l
    | None => "es"
    end in
  {| locale := locale;
     messages := "../../messages/" ++ locale ++ ".json" |}.

End Request.

(** ** src/middleware.ts: the options handed to next-intl's middleware *)
Module Middleware.

Record Options : Type := {
  locales : list string;
  defaultLocale : string;
  localePrefix : string
}.

Definition options : Options :=
  {| locales := ["es"]; defaultLocale := "es"; localePrefix := "always" |}.

End Middleware.

(** ** content-extraction/*.json as the components read it *)
Module Content.

(** [type Locale = 'en' | 'es' | 'pt'] *)
Inductive Locale : Type := en | es | pt.

Definition code (l : Locale) : string :=
  match l with en => "en" | es => "es" | pt => "pt" end.

(** One entry of [projects.json]: the fields the components below read. *)
Record Project : Type := {
  slug : string;
  featured : bool;
  category : list string;
  title : gmap string string;
  tagline : gmap string string;
  challenge : gmap string (list string);
  (* [(project.strategy as any).solution] *)
  strategy_solution : option (gmap string (list string));
  (* [(project.strategy as any).conversionFunnel.title] *)
  funnel_title : option (gmap string string)
}.

Record Meta : Type := {
  meta_title : string;
  description : string;
  keywords : list string
}.

Record Skill : Type := { name : string; percentage : nat }.

Record About : Type := { skills : list Skill }.

(** A top-level entry of [site-content.json].  The per-locale entries have
    [meta] and [about]; the [site] and [team] entries have neither. *)
Record Bundle : Type := {
  meta : option Meta;
  about : option About
}.

End Content.

(** ** src/app/[locale]/layout.tsx *)
Module Layout.

Import Content.

Definition locales : list string := ["es"].

Record Metadata : Type := {
  title_default : string;
  title_template : string;
  md_description : string;
  md_keywords : list string;
  canonical : string;
  og_locale : string
}.

(** [siteContent[locale as "es"] || siteContent.es] *)
Definition localeData (siteContent : gmap string Bundle) (locale : string)
  : Js.property Bundle :=
  Js.por Js.truthy_object (Js.get siteContent locale)
    (Js.get siteContent "es").

(** [localeData.meta] is undefined on [undefined] (a TypeError at once) and
    on an inherited value (a TypeError at [meta.title]). *)
Definition generateMetadata (siteContent : gmap string Bundle)
    (locale : string) : Js.result Metadata :=
  match localeData siteContent locale with
  | Js.Undefined => Js.Throw Js.TypeError
  | Js.Inherited _ => Js.Throw Js.TypeError
  | Js.Own data =>
      match meta data with
      | None => Js.Throw Js.TypeError
      | Some m =>
          Js.Return
            {| title_default := meta_title m;
               title_template := "%s | NewSite by Carolina Arango";
               md_description := description m;
               md_keywords := keywords m;
               canonical := "/" ++ locale;
               og_locale := locale |}
      end
  end.

(** The layout's guard: [if (!locales.includes(locale)) notFound()]; the
    value returned is the [lang] attribute of the document. *)
Definition LocaleLayout (locale : string) : Js.result string :=
  if negb (Js.includes locales locale)
  then Js.Throw Js.NotFoundError
  else Js.Return locale.

(** [generateStaticParams] of the layout. *)
Definition generateStaticParams : list string :=
  List.map (fun locale => locale) locales.

End Layout.

(** ** src/components/sections/AboutSection.tsx

    [const content = siteContent[locale]; const skills = content.about.skills].
    ServicesSection, BlogSection, ContactSection and StructuredData index
    [siteContent] in the same way. *)
Module AboutSection.

Import Content.

Definition AboutSection (siteContent : gmap string Bundle) (locale : string)
  : Js.result (list Skill) :=
  match siteContent !! locale with
  | None => Js.Throw Js.TypeError
  | Some content =>
      match about content with
      | None => Js.Throw Js.TypeError
      | Some a => Js.Return (skills a)
      end
  end.

End AboutSection.

(** ** src/components/sections/ProjectsSection.tsx

    The scaffold under new-portfolio/ computes [filtered] with the same
    expression. *)
Module ProjectsSection.

Import Content.

Inductive Category : Type :=
| all | vacation_rentals | branding | paid_ads | social_media.

Definition key (c : Category) : string :=
  match c with
  | all => "all"
  | vacation_rentals => "vacation-rentals"
  | branding => "branding"
  | paid_ads => "paid-ads"
  | social_media => "social-media"
  end.

Definition filtered (projects : list Project) (filter : Category)
  : list Project :=
  if String.eqb (key filter) "all"
  then List.filter (fun p => featured p) projects
  else List.filter
         (fun p => featured p && Js.includes (category p) (key filter))
         projects.

End ProjectsSection.

(** ** src/app/[locale]/projects/[slug]/page.tsx

    [ProjectPage] is the first render of the enhanced page, with the
    Overview tab active: the slug lookup, the [notFound()] guard and the
    reads of title, tagline and challenge, of which that render shows the
    first two.  [ChallengeTab] is the render with the Challenge tab active,
    which evaluates [challenge.map].  The strategy, results and gallery
    tabs read fields that [Content.Project] does not hold. *)
Module ProjectPage.

Import Content.

Record View : Type := {
  project : Project;
  title : option string;
  tagline : option string;
  challenge : option (list string)
}.

Definition ProjectPage (projects : list Project) (locale slug : string)
  : Js.result View :=
  match Js.find (fun p => String.eqb (Content.slug p) slug) projects with
  | None => Js.Throw Js.NotFoundError
  | Some project =>
      Js.Return
        {| project := project;
           title := Content.title project !! locale;
           tagline := Content.tagline project !! locale;
           challenge := Content.challenge project !! locale |}
  end.

(** [field[locale as Locale] || field.en], the form of every read inside
    the strategy and results tabs. *)
Definition localized {T : Type} (truthy : T -> bool)
    (field : gmap string T) (locale : string) : option T :=
  Js.or truthy (field !! locale) (field !! "en").

(** [solution && (solution[locale] || solution.en).map(...)]: the items
    listed under "Strategic Solution", [None] when the card is not shown. *)
Definition solutionItems (p : Project) (locale : string)
  : Js.result (option (list string)) :=
  match strategy_solution p with
  | None => Js.Return None
  | Some solution =>
      match localized Js.truthy_object solution locale with
      | None => Js.Throw Js.TypeError
      | Some items => Js.Return (Some items)
      end
  end.

(** [conversionFunnel && ... {title[locale] || title.en}]: the heading of
    the funnel card. *)
Definition funnelTitle (p : Project) (locale : string) : option string :=
  match funnel_title p with
  | None => None
  | Some t => localized Js.truthy_string t locale
  end.

(** The items of [challenge.map(...)] when [activeTab === 'challenge']. *)
Definition ChallengeTab (projects : list Project) (locale slug : string)
  : Js.result (list string) :=
  match ProjectPage projects locale slug with
  | Js.Throw e => Js.Throw e
  | Js.Return view =>
      match challenge view with
      | Some items => Js.Return items
      | None => Js.Throw Js.TypeError
      end
  end.

End ProjectPage.

(** ** src/lib/utils.ts *)
Module Utils.

Local Open Scope list_scope.

(** [\D] is every code unit outside ["0".."9"]. *)
Definition is_digit (c : N) : bool := (48 <=? c)%N && (c <=? 57)%N.

(** [phone.replace(/\D/g, '')] *)
Definition formatWhatsAppNumber (phone : list N) : list N :=
  List.filter is_digit phone.

(** The characters encodeURIComponent leaves alone:
    [A-Z a-z 0-9 - _ . ! ~ * ' ( )]. *)
Definition unescaped (c : N) : bool :=
  ((65 <=? c) && (c <=? 90) || (97 <=? c) && (c <=? 122) || is_digit c
   || existsb (N.eqb c) (Js.lit "-_.!~*'()"))%N.

Definition is_lead (c : N) : bool := (0xD800 <=? c)%N && (c <=? 0xDBFF)%N.
Definition is_trail (c : N) : bool := (0xDC00 <=? c)%N && (c <=? 0xDFFF)%N.

Definition surrogate_pair (hi lo : N) : N :=
  ((hi - 0xD800) * 0x400 + (lo - 0xDC00) + 0x10000)%N.

Definition utf8 (cp : N) : list N :=
  if (cp <? 0x80)%N then [cp]
  else if (cp <? 0x800)%N then
    [N.lor 0xC0 (N.shiftr cp 6); N.lor 0x80 (N.land cp 0x3F)]
  else if (cp <? 0x10000)%N then
    [N.lor 0xE0 (N.shiftr cp 12);
     N.lor 0x80 (N.land (N.shiftr cp 6) 0x3F);
     N.lor 0x80 (N.land cp 0x3F)]
  else
    [N.lor 0xF0 (N.shiftr cp 18);
     N.lor 0x80 (N.land (N.shiftr cp 12) 0x3F);
     N.lor 0x80 (N.land (N.shiftr cp 6) 0x3F);
     N.lor 0x80 (N.land cp 0x3F)].

Definition hex_digit (n : N) : N :=
  if (n <? 10)%N then (48 + n)%N else (55 + n)%N.

Definition percent (octet : N) : list N :=
  [37%N; hex_digit (octet / 16)%N; hex_digit (octet mod 16)%N].

Definition escape (cp : N) : list N := concat (List.map percent (utf8 cp)).

(** ECMAScript's Encode with the unescaped set of encodeURIComponent. *)
Fixpoint encodeURIComponent (s : list N) : Js.result (list N) :=
  match s with
  | [] => Js.Return []
  | c :: rest =>
      if unescaped c then
        match encodeURIComponent rest with
        | Js.Return r => Js.Return (c :: r)
        | Js.Throw e => Js.Throw e
        end
      else if is_lead c then
        match rest with
        | d :: rest' =>
            if is_trail d then
              match encodeURIComponent rest' with
              | Js.Return r => Js.Return (escape (surrogate_pair c d) ++ r)
              | Js.Throw e => Js.Throw e
              end
            else Js.Throw Js.URIError
        | [] => Js.Throw Js.URIError
        end
      else if is_trail c then Js.Throw Js.URIError
      else
        match encodeURIComponent rest with
        | Js.Return r => Js.Return (escape c ++ r)
        | Js.Throw e => Js.Throw e
        end
  end.

(** ToBoolean on a string of code units. *)
Definition truthy_units (s : list N) : bool :=
  match s with [] => false | _ => true end.

Definition createWhatsAppURL (phone : list N) (message : option (list N))
  : Js.result (list N) :=
  let formattedPhone := formatWhatsAppNumber phone in
  let encoded :=
    match message with
    | Some m => if truthy_units m then encodeURIComponent m else Js.Return []
    | None => Js.Return []
    end in
  match encoded with
  | Js.Throw e => Js.Throw e
  | Js.Return encodedMessage =>
      Js.Return
        (Js.lit "https://wa.me/" ++ formattedPhone ++
         (if truthy_units encodedMessage
          then Js.lit "?text=" ++ encodedMessage else []))
  end.

(** [s.includes(t)] on code units. *)
Fixpoint starts_with (t s : list N) : bool :=
  match t, s with
  | [], _ => true
  | _ :: _, [] => false
  | a :: t', b :: s' => N.eqb a b && starts_with t' s'
  end.

Fixpoint contains (s t : list N) : bool :=
  starts_with t s ||
  match s with
  | [] => false
  | _ :: s' => contains s' t
  end.

(** [str.slice(0, end)] for an integer [end]: a negative [end] counts from
    the end of the string. *)
Definition slice_to (str : list N) (e : Z) : list N :=
  if (e <? 0)%Z then take (Z.to_nat (Z.of_nat (length str) + e)) str
  else take (Z.to_nat e) str.

(** [truncate(str, length)], for an integer [length]. *)
Definition truncate (str : list N) (len : Z) : list N :=
  if (Z.of_nat (length str) <=? len)%Z then str
  else slice_to str len ++ Js.lit "...".

(** [\s], which is also what [trim] removes: WhiteSpace and
    LineTerminator. *)
Definition is_space (c : N) : bool :=
  ((9 <=? c) && (c <=? 13) || (c =? 32) || (c =? 0xA0) || (c =? 0x1680)
   || (0x2000 <=? c) && (c <=? 0x200A) || (c =? 0x2028) || (c =? 0x2029)
   || (c =? 0x202F) || (c =? 0x205F) || (c =? 0x3000) || (c =? 0xFEFF))%N.

(** [\w]: [A-Z a-z 0-9 _]. *)
Definition is_word (c : N) : bool :=
  ((65 <=? c) && (c <=? 90) || (97 <=? c) && (c <=? 122) || is_digit c
   || (c =? 95))%N.

Fixpoint drop_while (p : N -> bool) (s : list N) : list N :=
  match s with
  | [] => []
  | c :: rest => if p c then drop_while p rest else s
  end.

(** [str.trim()] *)
Definition trim (s : list N) : list N :=
  rev (drop_while is_space (rev (drop_while is_space s))).

(** The characters that [replace(/[^\w\s-]/g, '')] keeps. *)
Definition kept (c : N) : bool := is_word c || is_space c || (c =? 45)%N.

(** [[\s_-]]. *)
Definition is_sep (c : N) : bool := is_space c || (c =? 95)%N || (c =? 45)%N.

(** [replace(/[\s_-]+/g, '-')]: every maximal run of separators becomes one
    dash; [in_run] tells that the previous character was a separator. *)
Fixpoint collapse (in_run : bool) (s : list N) : list N :=
  match s with
  | [] => []
  | c :: rest =>
      if is_sep c
      then (if in_run then collapse true rest else 45%N :: collapse true rest)
      else c :: collapse false rest
  end.

(** [replace(/^-+|-+$/g, '')] *)
Definition strip_dashes (s : list N) : list N :=
  rev (drop_while (N.eqb 45) (rev (drop_while (N.eqb 45) s))).

(** [slugify].  [String.prototype.toLowerCase] follows the Unicode case
    tables, which are no part of the repository: it is a parameter. *)
Section Slugify.

Variable toLowerCase : list N -> list N.

Definition slugify (str : list N) : list N :=
  strip_dashes
    (collapse false (List.filter kept (trim (toLowerCase str)))).

End Slugify.

(** What [toLowerCase] does to a string of ASCII characters. *)
Definition ascii_lower (s : list N) : list N :=
  List.map (fun c => if (65 <=? c)%N && (c <=? 90)%N then (c + 32)%N else c)
    s.

(** The length of the run of digits at the head of [s]. *)
Fixpoint digit_run (s : list N) : nat :=
  match s with
  | [] => 0
  | c :: rest => if is_digit c then S (digit_run rest) else 0
  end.

(** [replace(/\B(?=(\d{3})+(?!\d))/g, ',')]: a comma goes in front of a
    character when the character before it is a word character and the
    digits that start there are a positive multiple of three. *)
Fixpoint group_thousands (prev_word : bool) (s : list N) : list N :=
  match s with
  | [] => []
  | c :: rest =>
      (if prev_word && (0 <? digit_run (c :: rest))%nat
          && (digit_run (c :: rest) mod 3 =? 0)%nat
       then [44%N] else [])
      ++ c :: group_thousands (is_word c) rest
  end.

(** [num.toString()] for a natural number below 2^53. *)
Definition decimal (num : N) : list N :=
  Js.lit (NilEmpty.string_of_uint (N.to_uint num)).

(** [formatNumber], on the natural numbers below 2^53. *)
Definition formatNumber (num : N) : list N :=
  group_thousands false (decimal num).

End Utils.

(** ** src/components/ui/AnimatedText.tsx

    The component keeps three state variables and, through its effect, one
    timer at a time: the effect's timeout, or the pause timeout that the
    effect's callback arms once the target is fully typed.  Every state
    update runs the effect again, which arms a new effect timeout; an update
    that changes nothing leaves the component without a timer.  The props
    are fixed for the life of the component. *)
Module AnimatedText.

Local Open Scope list_scope.
Local Open Scope nat_scope.

Record Props : Type := {
  texts : list (list N);
  typingSpeed : N;
  deletingSpeed : N;
  pauseTime : N
}.

(** The defaults of the destructured props. *)
Definition defaults (texts : list (list N)) : Props :=
  {| texts := texts; typingSpeed := 100%N;
     deletingSpeed := 50%N; pauseTime := 2000%N |}.

Record State : Type := {
  currentIndex : nat;
  currentText : list N;
  isDeleting : bool
}.

Inductive Timer : Type :=
| EffectTimeout  (* setTimeout(callback, isDeleting ? deletingSpeed : typingSpeed) *)
| PauseTimeout.  (* setTimeout(() => setIsDeleting(true), pauseTime) *)

(** What the effect's callback does when it fires. *)
Inductive Action : Type :=
| SetCurrentText (s : list N)
| ArmPause
| NextText.      (* setIsDeleting(false); setCurrentIndex(prev => (prev + 1) % texts.length) *)

Definition callback (props : Props) (s : State) : Js.result Action :=
  if negb (isDeleting s) then
    match texts props !! currentIndex s with
    | None => Js.Throw Js.TypeError
    | Some targetText =>
        if length (currentText s) <? length targetText
        then Js.Return
               (SetCurrentText (take (length (currentText s) + 1) targetText))
        else Js.Return ArmPause
    end
  else
    if 0 <? length (currentText s)
    then Js.Return
           (SetCurrentText (take (length (currentText s) - 1) (currentText s)))
    else Js.Return NextText.

Record Machine : Type := {
  state : State;
  pending : option Timer
}.

Definition initial : Machine :=
  {| state := {| currentIndex := 0; currentText := []; isDeleting := false |};
     pending := Some EffectTimeout |}.

(** The delay of the pending timer. *)
Definition delay (props : Props) (m : Machine) : option N :=
  match pending m with
  | Some EffectTimeout =>
      Some (if isDeleting (state m) then deletingSpeed props
            else typingSpeed props)
  | Some PauseTimeout => Some (pauseTime props)
  | None => None
  end.

(** The pending timer fires.  With an empty [texts], [% texts.length] is NaN
    in the source and [Nat.modulo _ 0] here; either way the next read of
    [texts[currentIndex]] is undefined. *)
Definition fire (props : Props) (m : Machine) : Js.result Machine :=
  let s := state m in
  match pending m with
  | None => Js.Return m
  | Some PauseTimeout =>
      if isDeleting s
      then Js.Return {| state := s; pending := None |}
      else Js.Return
             {| state := {| currentIndex := currentIndex s;
                            currentText := currentText s;
                            isDeleting := true |};
                pending := Some EffectTimeout |}
  | Some EffectTimeout =>
      match callback props s with
      | Js.Throw e => Js.Throw e
      | Js.Return (SetCurrentText t) =>
          Js.Return
            {| state := {| currentIndex := currentIndex s;
                           currentText := t;
                           isDeleting := isDeleting s |};
               pending := Some EffectTimeout |}
      | Js.Return ArmPause =>
          Js.Return {| state := s; pending := Some PauseTimeout |}
      | Js.Return NextText =>
          Js.Return
            {| state := {| currentIndex :=
                             (currentIndex s + 1) mod length (texts props);
                           currentText := currentText s;
                           isDeleting := false |};
               pending := Some EffectTimeout |}
      end
  end.

(** The substring handed to [setCurrentText] when the pending timer fires. *)
Definition emitted (props : Props) (m : Machine) : option (list N) :=
  match pending m with
  | Some EffectTimeout =>
      match callback props (state m) with
      | Js.Return (SetCurrentText t) => Some t
      | _ => None
      end
  | _ => None
  end.

(** [n] timers fire in a row. *)
Fixpoint run (props : Props) (n : nat) (m : Machine) : Js.result Machine :=
  match n with
  | 0 => Js.Return m
  | S k =>
      match fire props m with
      | Js.Return m' => run props k m'
      | Js.Throw e => Js.Throw e
      end
  end.

(** The substrings emitted while they do, each with the index it was
    emitted for. *)
Fixpoint trace (props : Props) (n : nat) (m : Machine)
  : list (nat * list N) :=
  match n with
  | 0 => []
  | S k =>
      match emitted props m with
      | Some t => [(currentIndex (state m), t)]
      | None => []
      end ++
      match fire props m with
      | Js.Return m' => trace props k m'
      | Js.Throw _ => []
      end
  end.

(** The time, in milliseconds, that [n] timers in a row wait for. *)
Fixpoint elapsed (props : Props) (n : nat) (m : Machine) : N :=
  match n with
  | 0 => 0%N
  | S k =>
      match delay props m, fire props m with
      | Some d, Js.Return m' => (d + elapsed props k m')%N
      | _, _ => 0%N
      end
  end.

End AnimatedText.

(** ** src/components/sections/ContactSection.tsx: [handleSubmit] *)
Module ContactSection.

Local Open Scope list_scope.

Record FormData : Type := {
  name : list N;
  phone : list N;
  email : list N;
  message : list N
}.

(** The template literal of the WhatsApp message; 10 is the line feed and
    233 the e with acute accent. *)
Definition whatsappMessage (formData : FormData) : list N :=
  Js.lit "Hola! Soy " ++ name formData ++ Js.lit "." ++ [10%N]
  ++ Js.lit "Tel" ++ [233%N] ++ Js.lit "fono: " ++ phone formData ++ [10%N]
  ++ Js.lit "Email: " ++ email formData ++ [10%N; 10%N]
  ++ Js.lit "Mensaje: " ++ message formData.

(** The link that [handleSubmit] opens; [whatsapp] is
    [siteContent.site.contact.whatsapp]. *)
Definition whatsappURL (whatsapp : list N) (formData : FormData)
  : Js.result (list N) :=
  Utils.createWhatsAppURL whatsapp (Some (whatsappMessage formData)).

End ContactSection.

(** ** new-portfolio/src/app/[locale]/projects/[slug]/page.tsx:
    [generateStaticParams] and [generateMetadata] *)
Module Scaffold.

Import Content.

Record Params : Type := { locale : string; slug : string }.

Definition locales : list string := ["en"; "es"; "pt"].

(** The two nested loops that push one entry per locale and project. *)
Definition generateStaticParams (projects : list Project) : list Params :=
  fold_left
    (fun params locale =>
       fold_left
         (fun params project =>
            (params
             ++ [{| locale := locale; slug := Content.slug project |}])%list)
         projects params)
    locales [].

Record Metadata : Type := {
  title : string;
  description : Js.property string
}.

(** A value inside a template literal; [describe name] is the text the
    engine prints for what [Object.prototype] holds under [name]. *)
Definition interpolate (describe : string -> string)
    (v : Js.property string) : string :=
  match v with
  | Js.Own s => s
  | Js.Inherited name => describe name
  | Js.Undefined => "undefined"
  end.

Definition generateMetadata (describe : string -> string)
    (projects : list Project) (params : Params) : Metadata :=
  match Js.find (fun p => String.eqb (Content.slug p) (slug params))
          projects with
  | None =>
      {| title := "Project Not Found"; description := Js.Undefined |}
  | Some project =>
      let title := Js.get (Content.title project) (locale params) in
      let tagline := Js.get (Content.tagline project) (locale params) in
      {| title := interpolate describe title
                  ++ " | NewSite by Carolina Arango";
         description := tagline |}
  end.

End Scaffold.

(** ** new-portfolio/src/app/[locale]/projects/[slug]/page.tsx:
    [ProjectPage]

    The slug lookup, the [notFound()] guard, the reads of title, tagline
    and challenge, and [challenge.map] of the return expression, which
    raises a TypeError on [undefined] and on an inherited value alike. *)
Module ScaffoldPage.

Import Content.

Record View : Type := {
  project : Project;
  title : Js.property string;
  tagline : Js.property string;
  challenge : list string
}.

Definition ProjectPage (projects : list Project) (locale slug : string)
  : Js.result View :=
  match Js.find (fun p => String.eqb (Content.slug p) slug) projects with
  | None => Js.Throw Js.NotFoundError
  | Some project =>
      match Js.get (Content.challenge project) locale with
      | Js.Own items =>
          Js.Return
            {| project := project;
               title := Js.get (Content.title project) locale;
               tagline := Js.get (Content.tagline project) locale;
               challenge := items |}
      | Js.Inherited _ => Js.Throw Js.TypeError
      | Js.Undefined => Js.Throw Js.TypeError
      end
  end.

End ScaffoldPage.

(** ** src/app/sitemap.ts *)
Module Sitemap.

Import Content.

Record Entry : Type := {
  url : string;
  lastModified : N;           (* the build's [new Date()] *)
  changeFrequency : string;
  priority : QArith_base.Q
}.

Definition baseUrl : string := "https://newsitebycaro.com".

Definition locales : list string := ["en"; "es"; "pt"].

Definition sitemap (projects : list Project) (currentDate : N)
  : list Entry :=
  let mainPages :=
    flat_map
      (fun locale =>
         [{| url := baseUrl ++ "/" ++ locale;
             lastModified := currentDate;
             changeFrequency := "monthly";
             priority := QArith_base.Qmake 1 1 |}])
      locales in
  let projectPages :=
    flat_map
      (fun locale =>
         List.map
           (fun project =>
              {| url := baseUrl ++ "/" ++ locale ++ "/projects/"
                        ++ Content.slug project;
                 lastModified := currentDate;
                 changeFrequency := "monthly";
                 priority := QArith_base.Qmake 8 10 |})
           projects)
      locales in
  (mainPages ++ projectPages)%list.

End Sitemap.

(** ** src/app/[locale]/projects/[slug]/page.tsx: the tab labels and the
    lightbox of the gallery *)
Module Gallery.

Record Labels : Type := {
  overview : string;
  challenge : string;
  strategy : string;
  results : string;
  gallery : string
}.

Definition tabLabels : gmap string Labels :=
  {[ "en" := {| overview := "Overview"; challenge := "Challenge";
                strategy := "Strategy"; results := "Results";
                gallery := "Gallery" |};
     "es" := {| overview := "Resumen"; challenge := "Desafío";
                strategy := "Estrategia"; results := "Resultados";
                gallery := "Galería" |};
     "pt" := {| overview := "Resumo"; challenge := "Desafio";
                strategy := "Estratégia"; results := "Resultados";
                gallery := "Galeria" |} ]}.

(** [tabLabels[locale as Locale] || tabLabels.en] *)
Definition currentLabels (locale : string) : Js.property Labels :=
  Js.por Js.truthy_object (Js.get tabLabels locale) (Js.get tabLabels "en").

(** The ids and labels of [tabs]; a label read off a value that is not a
    set of labels is undefined. *)
Definition tabs (locale : string) : list (string * option string) :=
  let label (field : Labels -> string) :=
    match currentLabels locale with
    | Js.Own labels => Some (field labels)
    | _ => None
    end in
  [("overview", label overview); ("challenge", label challenge);
   ("strategy", label strategy); ("results", label results);
   ("gallery", label gallery)].

(** The state of the lightbox: [selectedImage] and [imageIndex]. *)
Record Lightbox : Type := {
  selectedImage : option string;
  imageIndex : Z
}.

Definition closed : Lightbox := {| selectedImage := None; imageIndex := 0 |}.

(** [gallery[i]] for an integer [i]. *)
Definition image_at (images : list string) (i : Z) : option string :=
  if (i <? 0)%Z then None else images !! Z.to_nat i.

(** ToBoolean of [selectedImage]: the lightbox is on screen. *)
Definition is_open (lb : Lightbox) : bool :=
  match selectedImage lb with
  | Some image => Js.truthy_string image
  | None => false
  end.

Definition previous (images : list string) (lb : Lightbox) : Lightbox :=
  let newIndex :=
    if (0 <? imageIndex lb)%Z then (imageIndex lb - 1)%Z
    else (Z.of_nat (length images) - 1)%Z in
  {| selectedImage := image_at images newIndex; imageIndex := newIndex |}.

Definition next (images : list string) (lb : Lightbox) : Lightbox :=
  let newIndex :=
    if (imageIndex lb <? Z.of_nat (length images) - 1)%Z
    then (imageIndex lb + 1)%Z else 0%Z in
  {| selectedImage := image_at images newIndex; imageIndex := newIndex |}.

Inductive Event : Type :=
| ClickImage (index : nat)   (* a thumbnail of [gallery.map] *)
| KeyDown (key : string)
| ClickPrevious
| ClickNext
| ClickClose.                (* the backdrop or the close button *)

(** The handlers.  The buttons exist only while the lightbox is on screen,
    and the key handler returns at once while it is not. *)
Definition handle (images : list string) (lb : Lightbox) (e : Event)
  : Lightbox :=
  match e with
  | ClickImage index =>
      match images !! index with
      | Some image =>
          {| selectedImage := Some image; imageIndex := Z.of_nat index |}
      | None => lb
      end
  | KeyDown key =>
      if negb (is_open lb) then lb
      else if String.eqb key "Escape"
      then {| selectedImage := None; imageIndex := imageIndex lb |}
      else if String.eqb key "ArrowLeft" then previous images lb
      else if String.eqb key "ArrowRight" then next images lb
      else lb
  | ClickPrevious => if is_open lb then previous images lb else lb
  | ClickNext => if is_open lb then next images lb else lb
  | ClickClose =>
      if is_open lb
      then {| selectedImage := None; imageIndex := imageIndex lb |}
      else lb
  end.

End Gallery.

(** ** The vocabulary of the specification *)
Module Spec.

(** An input the resolver must replace: absent, empty, or outside the
    supported set. *)
Definition absent_or_unsupported (supported : list string)
    (input : option string) : Prop :=
  match input with
  | None => True
  | Some l => l = "" \/ l ∉ supported
  end.

(** [r] is the subsequence of [l] made of the entries that satisfy [P]:
    it keeps the order of [l], holds only such entries, and every other
    subsequence of such entries is a subsequence of it. *)
Definition subsequence_where {A : Type} (P : A -> Prop) (l r : list A)
  : Prop :=
  r `sublist_of` l /\ Forall P r /\
  forall r', r' `sublist_of` l -> Forall P r' -> r' `sublist_of` r.

(** A case study is listed under a category when it is featured and, for a
    category other than "all", carries the category's tag. *)
Definition selected (c : ProjectsSection.Category) (p : Content.Project)
  : Prop :=
  Content.featured p = true /\
  (c = ProjectsSection.all \/ ProjectsSection.key c ∈ Content.category p).

(** A string of code units without a lone surrogate. *)
Inductive well_formed : list N -> Prop :=
| wf_nil : well_formed []
| wf_unit c s :
    Utils.is_lead c = false -> Utils.is_trail c = false ->
    well_formed s -> well_formed (c :: s)
| wf_pair c d s :
    Utils.is_lead c = true -> Utils.is_trail d = true ->
    well_formed s -> well_formed (c :: d :: s).

(** The invariant of the typed-text cycler. *)
Definition cycler_invariant (props : AnimatedText.Props)
    (m : AnimatedText.Machine) : Prop :=
  let s := AnimatedText.state m in
  AnimatedText.currentIndex s < length (AnimatedText.texts props) /\
  exists target,
    AnimatedText.texts props !! AnimatedText.currentIndex s = Some target /\
    AnimatedText.currentText s `prefix_of` target.


(** What one timer may change: the text stays, or gains the next
    character of the target while typing, or loses its last character while
    deleting; and the index stays, or advances modulo the number of texts
    from an empty text. *)
Definition cycler_step (props : AnimatedText.Props)
    (m m' : AnimatedText.Machine) : Prop :=
  let s := AnimatedText.state m in
  let s' := AnimatedText.state m' in
  (AnimatedText.currentText s' = AnimatedText.currentText s \/
   (AnimatedText.isDeleting s = false /\
    exists target ch,
      AnimatedText.texts props !! AnimatedText.currentIndex s = Some target /\
      target !! length (AnimatedText.currentText s) = Some ch /\
      AnimatedText.currentText s'
      = (AnimatedText.currentText s ++ [ch])%list) \/
   (AnimatedText.isDeleting s = true /\
    exists ch,
      AnimatedText.currentText s
      = (AnimatedText.currentText s' ++ [ch])%list)) /\
  (AnimatedText.currentIndex s' = AnimatedText.currentIndex s \/
   (AnimatedText.currentText s = [] /\
    AnimatedText.currentIndex s'
    = (AnimatedText.currentIndex s + 1)
        mod length (AnimatedText.texts props))).

(** A character of an encoded URI component: one that is never escaped,
    or the percent sign of an escape. *)
Definition uri_char (c : N) : Prop := Utils.unescaped c = true \/ c = 37%N.

(** The characters of a slug: lower-case letters, digits and the dash. *)
Definition slug_char (c : N) : Prop :=
  (97 <= c <= 122)%N \/ (48 <= c <= 57)%N \/ c = 45%N.

Definition upper_case (c : N) : Prop := (65 <= c <= 90)%N.

(** A slug: made of slug characters, with no dash at either end and no two
    dashes in a row. *)
Definition slug_shaped (s : list N) : Prop :=
  Forall slug_char s /\
  (forall l, s <> 45%N :: l) /\
  (forall l, s <> (l ++ [45%N])%list) /\
  (forall l1 l2, s <> (l1 ++ 45%N :: 45%N :: l2)%list).

(** Digits grouped in threes from the right: a comma follows every digit
    that has a positive multiple of three digits after it. *)
Fixpoint grouped (digits : list N) : list N :=
  match digits with
  | [] => []
  | c :: rest =>
      c :: (if (0 <? length rest)%nat && (length rest mod 3 =? 0)%nat
            then 44%N :: grouped rest else grouped rest)
  end.

(** [n] timers take the cycler from [m] to [m'], emitting [tr] and waiting
    for [t] milliseconds in all. *)
Inductive runs (props : AnimatedText.Props)
  : nat -> AnimatedText.Machine -> AnimatedText.Machine ->
    list (nat * list N) -> N -> Prop :=
| runs_done m : runs props 0 m m [] 0%N
| runs_fire n m m1 m2 d tr t :
    AnimatedText.delay props m = Some d ->
    AnimatedText.fire props m = Js.Return m1 ->
    runs props n m1 m2 tr t ->
    runs props (S n) m m2
      (match AnimatedText.emitted props m with
       | Some text =>
           [(AnimatedText.currentIndex (AnimatedText.state m), text)]
       | None => []
       end ++ tr)%list
      (d + t)%N.

(** The cycler about to type or to delete at [index], with [text] on
    screen. *)
Definition typing_state (index : nat) (text : list N)
  : AnimatedText.Machine :=
  {| AnimatedText.state :=
       {| AnimatedText.currentIndex := index;
          AnimatedText.currentText := text;
          AnimatedText.isDeleting := false |};
     AnimatedText.pending := Some AnimatedText.EffectTimeout |}.

Definition deleting_state (index : nat) (text : list N)
  : AnimatedText.Machine :=
  {| AnimatedText.state :=
       {| AnimatedText.currentIndex := index;
          AnimatedText.currentText := text;
          AnimatedText.isDeleting := true |};
     AnimatedText.pending := Some AnimatedText.EffectTimeout |}.

(** The timers one text takes: one per character typed, the tick that arms
    the pause, the pause, one per character deleted and the tick that
    moves on. *)
Definition timers_of (text : list N) : nat := 2 * length text + 3.

(** The timers of one pass through all the texts. *)
Definition period (texts : list (list N)) : nat :=
  foldr (fun text n => timers_of text + n) 0 texts.

(** A timer is pending, and the pause timer only while typing. *)
Definition cycler_live (m : AnimatedText.Machine) : Prop :=
  AnimatedText.pending m = Some AnimatedText.EffectTimeout \/
  (AnimatedText.pending m = Some AnimatedText.PauseTimeout /\
   AnimatedText.isDeleting (AnimatedText.state m) = false).

(** The lightbox is consistent with the gallery: it shows nothing, or the
    image of the gallery at its index, which is within the gallery. *)
Definition lightbox_invariant (images : list string) (lb : Gallery.Lightbox)
  : Prop :=
  Gallery.selectedImage lb = None \/
  ((0 <= Gallery.imageIndex lb < Z.of_nat (length images))%Z /\
   Gallery.selectedImage lb = images !! Z.to_nat (Gallery.imageIndex lb)).

(** The lightbox showing the image at index [j]. *)
Definition showing (images : list string) (j : nat) : Gallery.Lightbox :=
  {| Gallery.selectedImage := images !! j;
     Gallery.imageIndex := Z.of_nat j |}.

(** The address of a project page. *)
Definition route (params : Scaffold.Params) : string :=
  Sitemap.baseUrl ++ "/" ++ Scaffold.locale params ++ "/projects/"
  ++ Scaffold.slug params.

End Spec.

(** ** Sample content *)
Module Sample.

Import Content.

Definition bundle (t : string) : Bundle :=
  {| meta := Some {| meta_title := t; description := "Marketing";
                     keywords := ["marketing"] |};
     about := Some {| skills := [{| name := "Meta Ads"; percentage := 90 |}] |} |}.

(** The per-locale bundles next to the locale-independent [site] entry. *)
Definition siteContent : gmap string Bundle :=
  {[ "en" := bundle "Digital Marketing";
     "es" := bundle "Marketing Digital";
     "pt" := bundle "Marketing Digital PT";
     "site" := {| meta := None; about := None |} ]}.

Definition funnel : gmap string string :=
  {[ "en" := "Funnel"; "es" := "Embudo"; "pt" := "" ]}.

Definition solution : gmap string (list string) :=
  {[ "en" := ["Meta Ads"] ]}.

(** A case study translated into English and Spanish only, whose funnel
    heading has an empty Portuguese entry. *)
Definition casa : Project :=
  {| slug := "casa-del-mar";
     featured := true;
     category := ["vacation-rentals"; "paid-ads"];
     title := {[ "en" := "Beach house"; "es" := "Casa del mar" ]};
     tagline := {[ "en" := "Bookings"; "es" := "Reservas" ]};
     challenge := {[ "en" := ["Low season"]; "es" := ["Temporada baja"] ]};
     strategy_solution := Some solution;
     funnel_title := Some funnel |}.

Definition logo : Project :=
  {| slug := "logo";
     featured := false;
     category := ["branding"];
     title := {[ "en" := "Logo"; "es" := "Logo"; "pt" := "Logo" ]};
     tagline := {[ "en" := "Identity"; "es" := "Identidad"; "pt" := "Identidade" ]};
     challenge := {[ "en" := []; "es" := []; "pt" := [] ]};
     strategy_solution := None;
     funnel_title := None |}.

Definition projects : list Project := [casa; logo].

(** The cycler of the specification's scenario, all delays zero. *)
Definition cycler : AnimatedText.Props :=
  {| AnimatedText.texts := [Js.lit "A"; Js.lit "BC"];
     AnimatedText.typingSpeed := 0;
     AnimatedText.deletingSpeed := 0;
     AnimatedText.pauseTime := 0 |}.

(** The scenario's cycler about to delete the ["C"] of ["BC"]. *)
Definition deleting_BC : AnimatedText.Machine :=
  {| AnimatedText.state :=
       {| AnimatedText.currentIndex := 1;
          AnimatedText.currentText := Js.lit "BC";
          AnimatedText.isDeleting := true |};
     AnimatedText.pending := Some AnimatedText.EffectTimeout |}.

(** A cycler whose first text is empty, with the default delays. *)
Definition blank_first : AnimatedText.Props :=
  AnimatedText.defaults [Js.lit ""; Js.lit "A"].

End Sample.

(** * Part II: the theorems *)

(** ** Arrays *)

Lemma includes_elem_of (xs : list string) (x : string) :
  Js.includes xs x = true <-> x ∈ xs.
Proof.
  unfold Js.includes. rewrite existsb_exists, list_elem_of_In. split.
  - intros (y & Hin & Heq). apply String.eqb_eq in Heq. by subst.
  - intros Hin. exists x. split; [done | apply String.eqb_refl].
Qed.

Lemma includes_not_elem_of (xs : list string) (x : string) :
  Js.includes xs x = false <-> x ∉ xs.
Proof.
  rewrite <- includes_elem_of. destruct (Js.includes xs x); split; congruence.
Qed.

Lemma truthy_string_nonempty (s : string) :
  Js.truthy_string s = true <-> s <> "".
Proof.
  unfold Js.truthy_string. rewrite negb_true_iff. apply String.eqb_neq.
Qed.

(** ** The locale resolver *)

Lemma getRequestConfig_locale (input : option string) :
  Request.locale (Request.getRequestConfig input)
  = match input with
    | Some l =>
        if negb (Js.truthy_string l) || negb (Js.includes Request.locales l)
        then "es" else l
    | None => "es"
    end.
Proof. reflexivity. Qed.

(** C1, as the code has it.  The resolver of [getRequestConfig] is a total
    function whose supported list is ["es"] alone.  An absent, empty or
    unsupported request locale resolves to ["es"], the default locale of
    the middleware, and a member of the list, which is ["es"], resolves
    to itself; so ["en"] and ["pt"], like every other input, resolve to
    ["es"]. *)
Theorem locale_resolver_total :
  (forall l : string, l ∈ Request.locales <-> l = "es") /\
  (forall input : option string,
      Spec.absent_or_unsupported Request.locales input ->
      Request.locale (Request.getRequestConfig input)
      = Middleware.defaultLocale Middleware.options) /\
  (forall l : string,
      l ∈ Request.locales ->
      Request.locale (Request.getRequestConfig (Some l)) = l) /\
  (forall input : option string,
      Request.locale (Request.getRequestConfig input)
      = Middleware.defaultLocale Middleware.options) /\
  (forall l : Content.Locale,
      Request.locale (Request.getRequestConfig (Some (Content.code l)))
      = "es").
Proof.
  assert (forall l : string, l ∈ Request.locales <-> l = "es") as Hes.
  { intros l. rewrite list_elem_of_In. cbn. intuition. }
  assert (forall l : string,
             l ∈ Request.locales ->
             Request.locale (Request.getRequestConfig (Some l)) = l) as Hid.
  { intros l H. rewrite getRequestConfig_locale.
    assert (l <> "") as Hne by (apply Hes in H; by subst).
    apply truthy_string_nonempty in Hne. apply includes_elem_of in H.
    by rewrite Hne, H. }
  assert (forall input : option string,
             Request.locale (Request.getRequestConfig input) = "es") as Hall.
  { intros [l|]; [|done]. rewrite getRequestConfig_locale.
    destruct (Js.truthy_string l); cbn [negb orb]; [|done].
    destruct (Js.includes Request.locales l) eqn:Hi; cbn [negb]; [|done].
    by apply includes_elem_of, Hes in Hi. }
  split; [exact Hes|]. split; [intros input _; apply Hall|].
  split; [exact Hid|]. split; [exact Hall|]. intros l. apply Hall.
Qed.

Lemma locale_resolver_total_witness :
  Request.locale (Request.getRequestConfig (Some "fr")) = "es" /\
  Request.locale (Request.getRequestConfig None) = "es" /\
  Request.locale (Request.getRequestConfig (Some "es")) = "es".
Proof.
  pose proof locale_resolver_total as (_ & Hdefault & Hid & _).
  split; [|split].
  - apply (Hdefault (Some "fr")). right.
    rewrite list_elem_of_In. simpl. intuition discriminate.
  - apply (Hdefault None). exact I.
  - apply (Hid "es"). rewrite list_elem_of_In. simpl. auto.
Defined.

(** C1 as stated fails on ["en"] and ["pt"], members of the supported set
    {en, es, pt} of the specification and of [Content.Locale]: the
    resolver does not return them unchanged but replaces them by ["es"]. *)
Lemma locale_resolver_replaces_en_and_pt :
  Request.locale (Request.getRequestConfig (Some (Content.code Content.en)))
  <> Content.code Content.en /\
  Request.locale (Request.getRequestConfig (Some (Content.code Content.pt)))
  <> Content.code Content.pt /\
  Request.locale (Request.getRequestConfig (Some (Content.code Content.en)))
  = "es".
Proof. repeat split; discriminate. Qed.

(** ** The site content lookups *)

Lemma get_own {T : Type} (o : gmap string T) (key : string) (v : T) :
  o !! key = Some v -> Js.get o key = Js.Own v.
Proof. intros H. unfold Js.get. by rewrite H. Qed.

Lemma get_undefined {T : Type} (o : gmap string T) (key : string) :
  o !! key = None -> key ∉ Js.prototype_names -> Js.get o key = Js.Undefined.
Proof.
  intros H Hk. unfold Js.get. rewrite H.
  by rewrite (proj2 (includes_not_elem_of _ _) Hk).
Qed.

Lemma get_inherited {T : Type} (o : gmap string T) (key : string) :
  o !! key = None -> key ∈ Js.prototype_names ->
  Js.get o key = Js.Inherited key.
Proof.
  intros H Hk. unfold Js.get. rewrite H.
  by rewrite (proj2 (includes_elem_of _ _) Hk).
Qed.

Lemma por_object_same {T : Type} (a : Js.property T) :
  Js.por Js.truthy_object a a = a.
Proof. by destruct a. Qed.

Lemma localeData_absent (siteContent : gmap string Content.Bundle)
    (locale : string) :
  siteContent !! locale = None -> locale ∉ Js.prototype_names ->
  Layout.localeData siteContent locale = Js.get siteContent "es".
Proof.
  intros H Hk. unfold Layout.localeData. by rewrite get_undefined.
Qed.

Lemma localeData_es (siteContent : gmap string Content.Bundle) :
  Layout.localeData siteContent "es" = Js.get siteContent "es".
Proof. apply por_object_same. Qed.

(** C7, as the code has it.  In the layout's [generateMetadata] a locale
    key that the site content lacks, and that is no name inherited from
    [Object.prototype], falls back to the [es] bundle: the bundle read is
    the one read for ["es"], and the metadata built from it is returned
    rather than an error.  The section components index the site content
    with the locale the resolver has validated, and read that locale's
    bundle. *)
Theorem site_content_fallback_in_layout
    (siteContent : gmap string Content.Bundle) :
  (forall locale : string,
      siteContent !! locale = None ->
      locale ∉ Js.prototype_names ->
      Layout.localeData siteContent locale = Js.get siteContent "es" /\
      Layout.localeData siteContent locale
      = Layout.localeData siteContent "es" /\
      forall md,
        Layout.generateMetadata siteContent "es" = Js.Return md ->
        exists md',
          Layout.generateMetadata siteContent locale = Js.Return md' /\
          Layout.title_default md' = Layout.title_default md /\
          Layout.md_description md' = Layout.md_description md /\
          Layout.md_keywords md' = Layout.md_keywords md) /\
  (forall (locale : string) content a,
      siteContent !! locale = Some content ->
      Content.about content = Some a ->
      AboutSection.AboutSection siteContent locale
      = Js.Return (Content.skills a)).
Proof.
  split.
  - intros locale Habs Hname.
    pose proof (localeData_absent _ _ Habs Hname) as Hl.
    pose proof (localeData_es siteContent) as Hes.
    repeat split; [done | congruence |].
    intros md. unfold Layout.generateMetadata. rewrite Hl, Hes.
    destruct (Js.get siteContent "es") as [data| |]; [|discriminate..].
    destruct (Content.meta data) as [m|]; [|discriminate].
    intros [= <-]. eexists. split; [reflexivity|]. by cbn.
  - intros locale content a Hc Ha. unfold AboutSection.AboutSection.
    by rewrite Hc, Ha.
Qed.

Lemma site_content_fallback_in_layout_witness :
  Layout.localeData Sample.siteContent "fr"
  = Layout.localeData Sample.siteContent "es" /\
  AboutSection.AboutSection Sample.siteContent "es"
  = Js.Return [{| Content.name := "Meta Ads"; Content.percentage := 90 |}].
Proof.
  split.
  - apply (proj1 (site_content_fallback_in_layout Sample.siteContent) "fr").
    + reflexivity.
    + rewrite list_elem_of_In. simpl. intuition discriminate.
  - apply (proj2 (site_content_fallback_in_layout Sample.siteContent) "es"
             (Sample.bundle "Marketing Digital")
             {| Content.skills :=
                  [{| Content.name := "Meta Ads"; Content.percentage := 90 |}] |});
      reflexivity.
Defined.

(** C7 as stated fails in the section components: for ["fr"], absent from
    the site content, AboutSection raises a TypeError on the undefined
    bundle where the lookup for ["es"] succeeds. *)
Lemma about_section_no_fallback :
  Sample.siteContent !! "fr" = None /\
  AboutSection.AboutSection Sample.siteContent "fr" = Js.Throw Js.TypeError /\
  AboutSection.AboutSection Sample.siteContent "fr"
  <> AboutSection.AboutSection Sample.siteContent "es".
Proof.
  assert (Sample.siteContent !! "fr" = None) as H by reflexivity.
  assert (AboutSection.AboutSection Sample.siteContent "fr"
          = Js.Throw Js.TypeError) as H'.
  { unfold AboutSection.AboutSection. by rewrite H. }
  split; [done | split; [done |]]. rewrite H'. discriminate.
Qed.

(** ** The localized field reads *)

Section Localized.

Context {T : Type} (truthy : T -> bool).
Variables (field : gmap string T) (d : T).
Hypothesis en_present : field !! "en" = Some d.

Lemma localized_defined (locale : string) :
  is_Some (ProjectPage.localized truthy field locale).
Proof.
  unfold ProjectPage.localized, Js.or. rewrite en_present.
  destruct (field !! locale) as [v|]; [destruct (truthy v)|]; eauto.
Qed.

Lemma localized_present (locale : string) (v : T) :
  field !! locale = Some v -> truthy v = true ->
  ProjectPage.localized truthy field locale = Some v.
Proof.
  intros Hv Ht. unfold ProjectPage.localized, Js.or. by rewrite Hv, Ht.
Qed.

Lemma localized_fallback (locale : string) :
  field !! locale = None \/
  (exists v, field !! locale = Some v /\ truthy v = false) ->
  ProjectPage.localized truthy field locale = Some d.
Proof.
  unfold ProjectPage.localized, Js.or.
  intros [-> | (v & -> & ->)]; exact en_present.
Qed.

End Localized.

(** C2, as the code has it.  At the reads written
    [field[locale] || field.en], for every field whose [en] entry is
    present and every supported locale, the read is defined; it is the
    locale's entry when that entry is present and truthy, and the [en]
    entry otherwise; consequently the list under "Strategic Solution"
    never raises.  The page's own reads of title, tagline and challenge
    yield the locale's entry whenever it is present. *)
Theorem localized_read_falls_back_to_en :
  (forall (T : Type) (truthy : T -> bool) (field : gmap string T)
          (l : Content.Locale) (d : T),
      field !! "en" = Some d ->
      is_Some (ProjectPage.localized truthy field (Content.code l)) /\
      (forall v,
          field !! Content.code l = Some v -> truthy v = true ->
          ProjectPage.localized truthy field (Content.code l) = Some v) /\
      (field !! Content.code l = None \/
       (exists v, field !! Content.code l = Some v /\ truthy v = false) ->
       ProjectPage.localized truthy field (Content.code l) = Some d)) /\
  (forall (p : Content.Project) (l : Content.Locale) solution d,
      Content.strategy_solution p = Some solution ->
      solution !! "en" = Some d ->
      exists items,
        ProjectPage.solutionItems p (Content.code l)
        = Js.Return (Some items)) /\
  (forall (projects : list Content.Project) (l : Content.Locale)
          (slug : string) view,
      ProjectPage.ProjectPage projects (Content.code l) slug
      = Js.Return view ->
      let p := ProjectPage.project view in
      (forall v, Content.title p !! Content.code l = Some v ->
                 ProjectPage.title view = Some v) /\
      (forall v, Content.tagline p !! Content.code l = Some v ->
                 ProjectPage.tagline view = Some v) /\
      (forall v, Content.challenge p !! Content.code l = Some v ->
                 ProjectPage.challenge view = Some v)).
Proof.
  split; [|split].
  - intros T truthy field l d Hen. split; [|split].
    + by eapply localized_defined.
    + intros v. apply localized_present.
    + by apply localized_fallback.
  - intros p l solution d Hs Hen. unfold ProjectPage.solutionItems.
    rewrite Hs.
    destruct (localized_defined Js.truthy_object solution d Hen
                (Content.code l)) as [items ->].
    by exists items.
  - intros projects l slug view. unfold ProjectPage.ProjectPage.
    destruct (Js.find _ projects) as [q|]; [|discriminate].
    intros [= <-]. by cbn.
Qed.

Lemma localized_read_falls_back_to_en_witness :
  ProjectPage.localized Js.truthy_string Sample.funnel "pt" = Some "Funnel" /\
  exists items,
    ProjectPage.solutionItems Sample.casa "es" = Js.Return (Some items).
Proof.
  pose proof localized_read_falls_back_to_en as (Hread & Hsol & _).
  split.
  - apply (Hread string Js.truthy_string Sample.funnel Content.pt "Funnel").
    + reflexivity.
    + right. exists "". split; reflexivity.
  - apply (Hsol Sample.casa Content.es Sample.solution ["Meta Ads"]);
      reflexivity.
Defined.

(** C2 as stated fails on a case study translated into English and Spanish
    only, read for Portuguese: the title, read by direct indexing, is
    undefined although the [en] and [es] entries are present; and the
    funnel heading, whose Portuguese entry is present but empty, resolves
    to the English entry rather than to the entry of the locale. *)
Lemma title_read_undefined_without_translation :
  is_Some (Content.title Sample.casa !! "en") /\
  is_Some (Content.title Sample.casa !! "es") /\
  (exists view,
      ProjectPage.ProjectPage Sample.projects (Content.code Content.pt)
        "casa-del-mar" = Js.Return view /\
      ProjectPage.title view = None) /\
  (exists t,
      Content.funnel_title Sample.casa = Some t /\
      t !! Content.code Content.pt = Some "" /\
      ProjectPage.funnelTitle Sample.casa (Content.code Content.pt)
      <> Some "").
Proof.
  split; [by eexists|]. split; [by eexists|]. split.
  - eexists. split; [reflexivity|]. reflexivity.
  - eexists. split; [reflexivity|]. split; [reflexivity|]. discriminate.
Qed.

(** ** The project page's slug lookup *)

Lemma find_slug_none (projects : list Content.Project) (slug : string) :
  Js.find (fun p => String.eqb (Content.slug p) slug) projects = None <->
  forall p, p ∈ projects -> Content.slug p <> slug.
Proof.
  unfold Js.find. induction projects as [|q projects IH]; cbn.
  - split; [|done]. intros _ p Hp. by apply elem_of_nil in Hp.
  - destruct (String.eqb_spec (Content.slug q) slug) as [Heq|Hne].
    + split; [done|]. intros H. destruct (H q); [by left | done].
    + rewrite IH. split.
      * intros H p [->|Hp]%elem_of_cons; auto.
      * intros H p Hp. apply H. by right.
Qed.

Lemma find_slug_some (projects : list Content.Project) (slug : string) q :
  Js.find (fun p => String.eqb (Content.slug p) slug) projects = Some q ->
  q ∈ projects /\ Content.slug q = slug.
Proof.
  unfold Js.find. intros [Hin Heq]%List.find_some. split.
  - by apply list_elem_of_In.
  - by apply String.eqb_eq.
Qed.

Lemma unique_slug (projects : list Content.Project) p q :
  NoDup (Content.slug <$> projects) ->
  p ∈ projects -> q ∈ projects -> Content.slug p = Content.slug q -> p = q.
Proof.
  induction projects as [|r projects IH]; intros Hnd Hp Hq Heq.
  - by apply elem_of_nil in Hp.
  - rewrite fmap_cons in Hnd. apply NoDup_cons in Hnd as [Hr Hnd].
    apply elem_of_cons in Hp as [->|Hp]; apply elem_of_cons in Hq as [->|Hq];
      try done.
    + destruct Hr. rewrite Heq. by apply list_elem_of_fmap_2.
    + destruct Hr. rewrite <- Heq. by apply list_elem_of_fmap_2.
    + by apply IH.
Qed.

Lemma page_found (projects : list Content.Project) (slug : string) p :
  p ∈ projects -> Content.slug p = slug ->
  exists q,
    Js.find (fun p => String.eqb (Content.slug p) slug) projects = Some q /\
    q ∈ projects /\ Content.slug q = slug /\
    (NoDup (Content.slug <$> projects) -> q = p).
Proof.
  intros Hp Hs.
  destruct (Js.find _ projects) as [q|] eqn:Hfind.
  - destruct (find_slug_some _ _ _ Hfind) as [Hq Hqs].
    exists q. repeat split; try done.
    intros Hnd. apply (unique_slug projects); congruence.
  - by destruct (proj1 (find_slug_none projects slug) Hfind p Hp).
Qed.

(** C4, as the code has it.  A slug that matches no case study makes the
    project page end in the not-found outcome, on the scaffold page and on
    the enhanced page alike.  A slug that matches one selects a case study
    with that slug, the very one when slugs are unique: the enhanced
    page's first render returns its view; the scaffold page, and the
    enhanced page's Challenge tab, render it when the case study's
    challenge has an entry for the locale, and raise a TypeError on
    [challenge.map] when it has none. *)
Theorem project_page_slug_lookup
    (projects : list Content.Project) (locale slug : string) :
  ((forall p, p ∈ projects -> Content.slug p <> slug) ->
   ScaffoldPage.ProjectPage projects locale slug
   = Js.Throw Js.NotFoundError /\
   ProjectPage.ProjectPage projects locale slug
   = Js.Throw Js.NotFoundError /\
   ProjectPage.ChallengeTab projects locale slug
   = Js.Throw Js.NotFoundError) /\
  (ScaffoldPage.ProjectPage projects locale slug
   = Js.Throw Js.NotFoundError ->
   forall p, p ∈ projects -> Content.slug p <> slug) /\
  (forall p,
      p ∈ projects -> Content.slug p = slug ->
      exists q,
        q ∈ projects /\ Content.slug q = slug /\
        (NoDup (Content.slug <$> projects) -> q = p) /\
        (exists view,
            ProjectPage.ProjectPage projects locale slug = Js.Return view /\
            ProjectPage.project view = q) /\
        (forall items,
            Content.challenge q !! locale = Some items ->
            ScaffoldPage.ProjectPage projects locale slug
            = Js.Return
                {| ScaffoldPage.project := q;
                   ScaffoldPage.title := Js.get (Content.title q) locale;
                   ScaffoldPage.tagline := Js.get (Content.tagline q) locale;
                   ScaffoldPage.challenge := items |} /\
            ProjectPage.ChallengeTab projects locale slug
            = Js.Return items) /\
        (Content.challenge q !! locale = None ->
         ScaffoldPage.ProjectPage projects locale slug
         = Js.Throw Js.TypeError /\
         ProjectPage.ChallengeTab projects locale slug
         = Js.Throw Js.TypeError)).
Proof.
  unfold ProjectPage.ChallengeTab, ScaffoldPage.ProjectPage,
    ProjectPage.ProjectPage.
  split; [|split].
  - intros Hnone. apply find_slug_none in Hnone. by rewrite Hnone.
  - destruct (Js.find _ projects) as [q|] eqn:Hfind.
    + by destruct (Js.get (Content.challenge q) locale).
    + intros _. by apply find_slug_none.
  - intros p Hp Hs.
    destruct (page_found projects slug p Hp Hs) as (q & -> & Hq & Hqs & Hu).
    exists q. do 3 (split; [done|]). split; [by eexists|]. split.
    + intros items Hitems. rewrite (get_own _ _ _ Hitems). cbn.
      by rewrite Hitems.
    + intros Hnone. cbn. rewrite Hnone. split; [|done].
      unfold Js.get. rewrite Hnone. by destruct (Js.includes _ locale).
Qed.

Lemma project_page_slug_lookup_witness :
  ScaffoldPage.ProjectPage Sample.projects "es" "nonexistent-project"
  = Js.Throw Js.NotFoundError /\
  exists q,
    q ∈ Sample.projects /\ Content.slug q = "logo" /\
    (NoDup (Content.slug <$> Sample.projects) -> q = Sample.logo) /\
    ScaffoldPage.ProjectPage Sample.projects "es" "logo"
    = Js.Return
        {| ScaffoldPage.project := q;
           ScaffoldPage.title := Js.get (Content.title q) "es";
           ScaffoldPage.tagline := Js.get (Content.tagline q) "es";
           ScaffoldPage.challenge := [] |}.
Proof.
  split.
  - apply (proj1 (project_page_slug_lookup Sample.projects "es"
                    "nonexistent-project")).
    intros p Hp. apply list_elem_of_In in Hp. simpl in Hp.
    destruct Hp as [<- | [<- | []]]; discriminate.
  - destruct (proj2 (proj2 (project_page_slug_lookup Sample.projects "es"
                              "logo")) Sample.logo)
      as (q & Hq & Hs & Hu & _ & Hshown & _).
    + apply list_elem_of_In. simpl. auto.
    + reflexivity.
    + exists q. repeat split; [exact Hq | exact Hs | exact Hu |].
      apply Hshown.
      assert (q = Sample.logo) as ->; [|reflexivity].
      apply Hu. repeat constructor; rewrite list_elem_of_In; simpl;
        intuition discriminate.
Defined.

(** C4 as stated fails on a slug that does match: for ["casa-del-mar"],
    whose challenge has no Portuguese entry, the scaffold page neither
    renders the case study nor ends in not-found but raises a TypeError. *)
Lemma project_page_type_error_on_match :
  Sample.casa ∈ Sample.projects /\
  Content.slug Sample.casa = "casa-del-mar" /\
  ScaffoldPage.ProjectPage Sample.projects (Content.code Content.pt)
    "casa-del-mar" = Js.Throw Js.TypeError /\
  ProjectPage.ChallengeTab Sample.projects (Content.code Content.pt)
    "casa-del-mar" = Js.Throw Js.TypeError.
Proof. split; [by left|]. by repeat split. Qed.

(** ** The category filter *)

Lemma filter_subsequence_where {A : Type} (f : A -> bool) (l : list A) :
  Spec.subsequence_where (fun x => f x = true) l (List.filter f l).
Proof.
  split; [|split].
  - induction l as [|x l IH]; cbn; [constructor|].
    destruct (f x); by constructor.
  - apply Forall_forall. intros x Hx. apply list_elem_of_In in Hx.
    by apply List.filter_In in Hx as [_ Hx].
  - induction l as [|x l IH]; intros r' Hsub Hall; cbn.
    + by apply sublist_nil_r in Hsub as ->.
    + apply sublist_cons_r in Hsub as [Hsub | (r'' & -> & Hsub)].
      * destruct (f x); [apply sublist_cons_r; left|]; by apply IH.
      * apply Forall_cons in Hall as [Hx Hall]. rewrite Hx.
        apply sublist_skip. by apply IH.
Qed.

Lemma sublist_full {A : Type} (l1 l2 : list A) :
  l1 `sublist_of` l2 -> length l2 <= length l1 -> l1 = l2.
Proof.
  induction 1 as [|x l1 l2 Hsub IH|x l1 l2 Hsub IH]; cbn; intros Hlen.
  - done.
  - f_equal. apply IH. lia.
  - apply sublist_length in Hsub. lia.
Qed.

(** [Spec.subsequence_where] determines the subsequence. *)
Lemma subsequence_where_unique {A : Type} (P : A -> Prop) (l r1 r2 : list A) :
  Spec.subsequence_where P l r1 -> Spec.subsequence_where P l r2 -> r1 = r2.
Proof.
  intros (Hs1 & Hp1 & Hm1) (Hs2 & Hp2 & Hm2).
  pose proof (Hm1 r2 Hs2 Hp2) as H21. pose proof (Hm2 r1 Hs1 Hp1) as H12.
  apply sublist_full; [done|]. by apply sublist_length.
Qed.

Lemma subsequence_where_ext {A : Type} (P Q : A -> Prop) (l r : list A) :
  (forall x, P x <-> Q x) ->
  Spec.subsequence_where P l r -> Spec.subsequence_where Q l r.
Proof.
  intros HPQ (Hsub & Hall & Hmax). split; [done|]. split.
  - eapply Forall_impl; [exact Hall|]. intros x. apply HPQ.
  - intros r' Hr' Hall'. apply Hmax; [done|].
    eapply Forall_impl; [exact Hall'|]. intros x. apply HPQ.
Qed.

Lemma filter_none {A : Type} (f : A -> bool) (l : list A) :
  (forall x, x ∈ l -> f x = false) -> List.filter f l = [].
Proof.
  induction l as [|x l IH]; intros H; cbn; [done|].
  rewrite (H x) by by left. apply IH. intros y Hy. apply H. by right.
Qed.

Lemma filter_twice {A : Type} (f : A -> bool) (l : list A) :
  List.filter f (List.filter f l) = List.filter f l.
Proof.
  induction l as [|x l IH]; cbn; [done|].
  destruct (f x) eqn:Hx; cbn; [rewrite Hx; f_equal|]; exact IH.
Qed.

Lemma filtered_all (projects : list Content.Project) :
  ProjectsSection.filtered projects ProjectsSection.all
  = List.filter (fun p => Content.featured p) projects.
Proof. reflexivity. Qed.

Lemma filtered_other (projects : list Content.Project) c :
  c <> ProjectsSection.all ->
  ProjectsSection.filtered projects c
  = List.filter
      (fun p => Content.featured p
                && Js.includes (Content.category p) (ProjectsSection.key c))
      projects.
Proof. by destruct c. Qed.

(** C3. For every case-study list and selected category the filter returns
    exactly the subsequence, in source order, of the entries that are
    featured and, for a category other than "all", carry its tag; when no
    entry is such, the result is the empty list. *)
Theorem category_filter_subsequence
    (projects : list Content.Project) (c : ProjectsSection.Category) :
  Spec.subsequence_where (Spec.selected c) projects
    (ProjectsSection.filtered projects c) /\
  ((forall p, p ∈ projects -> ~ Spec.selected c p) ->
   ProjectsSection.filtered projects c = []).
Proof.
  assert (c = ProjectsSection.all \/ c <> ProjectsSection.all) as [->|Hc]
    by (destruct c; (by left) || (by right)).
  - rewrite filtered_all. split.
    + eapply subsequence_where_ext; [|apply filter_subsequence_where].
      intros p. unfold Spec.selected. cbn. tauto.
    + intros H. apply filter_none. intros p Hp.
      destruct (Content.featured p) eqn:Hf; [|done].
      destruct (H p Hp). split; [done | by left].
  - rewrite filtered_other by done. split.
    + eapply subsequence_where_ext; [|apply filter_subsequence_where].
      intros p. unfold Spec.selected. cbn.
      rewrite andb_true_iff, includes_elem_of. tauto.
    + intros H. apply filter_none. intros p Hp.
      apply not_true_is_false. rewrite andb_true_iff, includes_elem_of.
      intros [Hf Hin]. destruct (H p Hp). split; [done | by right].
Qed.

Lemma category_filter_subsequence_witness :
  ProjectsSection.filtered Sample.projects ProjectsSection.branding = [].
Proof.
  apply (proj2 (category_filter_subsequence Sample.projects
                  ProjectsSection.branding)).
  intros p Hp [Hf [Hc | Hin]].
  - discriminate.
  - apply list_elem_of_In in Hp. simpl in Hp.
    destruct Hp as [<- | [<- | []]].
    + apply list_elem_of_In in Hin. simpl in Hin.
      destruct Hin as [Hin | [Hin | []]]; discriminate.
    + discriminate.
Defined.

(** C9. Filtering the "all"-filtered list by "all" again changes nothing. *)
Theorem category_filter_all_idempotent (projects : list Content.Project) :
  ProjectsSection.filtered
    (ProjectsSection.filtered projects ProjectsSection.all)
    ProjectsSection.all
  = ProjectsSection.filtered projects ProjectsSection.all.
Proof. rewrite !filtered_all. apply filter_twice. Qed.

(** ** The WhatsApp link builder *)

Local Open Scope list_scope.

Lemma unescaped_ascii (c : N) : Utils.unescaped c = true -> (c < 128)%N.
Proof.
  unfold Utils.unescaped, Utils.is_digit. cbn [existsb Js.lit].
  cbn. rewrite !orb_true_iff, !andb_true_iff, !N.leb_le, !N.eqb_eq. lia.
Qed.

Lemma unescaped_not_surrogate (c : N) :
  Utils.unescaped c = true ->
  Utils.is_lead c = false /\ Utils.is_trail c = false.
Proof.
  intros H%unescaped_ascii. unfold Utils.is_lead, Utils.is_trail.
  rewrite !andb_false_iff, !N.leb_gt. lia.
Qed.

Lemma lead_not_trail (c : N) :
  Utils.is_lead c = true -> Utils.is_trail c = false.
Proof.
  unfold Utils.is_lead, Utils.is_trail.
  rewrite andb_true_iff, andb_false_iff, !N.leb_le, !N.leb_gt. lia.
Qed.

Lemma escape_nonempty (cp : N) : Utils.escape cp <> [].
Proof.
  unfold Utils.escape, Utils.utf8.
  repeat match goal with |- context [if ?b then _ else _] => destruct b end;
    discriminate.
Qed.

(** The equations of [encodeURIComponent], one per branch. *)
Lemma encode_unescaped c rest :
  Utils.unescaped c = true ->
  Utils.encodeURIComponent (c :: rest)
  = match Utils.encodeURIComponent rest with
    | Js.Return r => Js.Return (c :: r)
    | Js.Throw e => Js.Throw e
    end.
Proof. intros H. cbn. by rewrite H. Qed.

Lemma encode_unit c rest :
  Utils.unescaped c = false ->
  Utils.is_lead c = false -> Utils.is_trail c = false ->
  Utils.encodeURIComponent (c :: rest)
  = match Utils.encodeURIComponent rest with
    | Js.Return r => Js.Return (Utils.escape c ++ r)
    | Js.Throw e => Js.Throw e
    end.
Proof. intros H1 H2 H3. cbn [Utils.encodeURIComponent]. by rewrite H1, H2, H3. Qed.

Lemma encode_pair c d rest :
  Utils.is_lead c = true -> Utils.is_trail d = true ->
  Utils.encodeURIComponent (c :: d :: rest)
  = match Utils.encodeURIComponent rest with
    | Js.Return r => Js.Return (Utils.escape (Utils.surrogate_pair c d) ++ r)
    | Js.Throw e => Js.Throw e
    end.
Proof.
  intros H1 H2. cbn [Utils.encodeURIComponent].
  destruct (Utils.unescaped c) eqn:Hu.
  - apply unescaped_not_surrogate in Hu as [Hu _]. congruence.
  - by rewrite H1, H2.
Qed.

Lemma encode_well_formed (s : list N) :
  Spec.well_formed s ->
  exists r, Utils.encodeURIComponent s = Js.Return r /\ (s <> [] -> r <> []).
Proof.
  induction 1 as [|c s Hl Ht Hwf (r & IH & _)|c d s Hl Ht Hwf (r & IH & _)].
  - by exists [].
  - destruct (Utils.unescaped c) eqn:Hu.
    + rewrite encode_unescaped, IH by done. by eexists.
    + rewrite encode_unit, IH by done. eexists. split; [done|].
      intros _ [Hnil _]%app_eq_nil. by apply escape_nonempty in Hnil.
  - rewrite encode_pair, IH by done. eexists. split; [done|].
    intros _ [Hnil _]%app_eq_nil. by apply escape_nonempty in Hnil.
Qed.

Lemma encode_throws (s : list N) e :
  Utils.encodeURIComponent s = Js.Throw e ->
  e = Js.URIError /\ ~ Spec.well_formed s.
Proof.
  remember (length s) as n eqn:Hn. revert s Hn.
  induction (lt_wf n) as [n _ IH]. intros s -> Henc.
  destruct s as [|c rest]; [discriminate|].
  destruct (Utils.unescaped c) eqn:Hu.
  - rewrite encode_unescaped in Henc by done.
    destruct (Utils.encodeURIComponent rest) as [r|e'] eqn:Hr; [done|].
    injection Henc as ->.
    destruct (IH (length rest) ltac:(cbn; lia) rest eq_refl Hr) as [-> Hnwf].
    split; [done|]. intros Hwf. apply Hnwf.
    apply unescaped_not_surrogate in Hu as [Hl _].
    inversion Hwf; subst; [done | congruence].
  - destruct (Utils.is_lead c) eqn:Hl.
    + destruct rest as [|d rest'].
      * cbn in Henc. rewrite Hu, Hl in Henc. injection Henc as <-.
        split; [done|]. intros Hwf. inversion Hwf; congruence.
      * destruct (Utils.is_trail d) eqn:Ht.
        -- rewrite encode_pair in Henc by done.
           destruct (Utils.encodeURIComponent rest') as [r|e'] eqn:Hr;
             [done|].
           injection Henc as ->.
           destruct (IH (length rest') ltac:(cbn; lia) rest' eq_refl Hr)
             as [-> Hnwf].
           split; [done|]. intros Hwf. apply Hnwf.
           inversion Hwf; subst; [congruence | done].
        -- cbn in Henc. rewrite Hu, Hl, Ht in Henc. injection Henc as <-.
           split; [done|]. intros Hwf. inversion Hwf; congruence.
    + destruct (Utils.is_trail c) eqn:Ht.
      * cbn in Henc. rewrite Hu, Hl, Ht in Henc. injection Henc as <-.
        split; [done|]. intros Hwf. inversion Hwf; congruence.
      * rewrite encode_unit in Henc by done.
        destruct (Utils.encodeURIComponent rest) as [r|e'] eqn:Hr; [done|].
        injection Henc as ->.
        destruct (IH (length rest) ltac:(cbn; lia) rest eq_refl Hr)
          as [-> Hnwf].
        split; [done|]. intros Hwf. apply Hnwf.
        inversion Hwf; subst; [done | congruence].
Qed.

Lemma encode_unescaped_id (s : list N) :
  Forall (fun c => Utils.unescaped c = true) s ->
  Utils.encodeURIComponent s = Js.Return s.
Proof.
  induction 1 as [|c s Hc _ IH]; [done|].
  by rewrite encode_unescaped, IH.
Qed.

Lemma encode_returns (s : list N) r :
  Utils.encodeURIComponent s = Js.Return r -> Spec.well_formed s.
Proof.
  remember (length s) as n eqn:Hn. revert s r Hn.
  induction (lt_wf n) as [n _ IH]. intros s r -> Henc.
  destruct s as [|c rest]; [constructor|].
  destruct (Utils.unescaped c) eqn:Hu.
  - rewrite encode_unescaped in Henc by done.
    destruct (Utils.encodeURIComponent rest) as [r'|] eqn:Hr; [|done].
    apply unescaped_not_surrogate in Hu as [Hl Ht].
    apply Spec.wf_unit; [done | done |].
    by apply (IH (length rest) ltac:(cbn; lia) rest r').
  - destruct (Utils.is_lead c) eqn:Hl.
    + destruct rest as [|d rest'];
        [cbn in Henc; by rewrite Hu, Hl in Henc|].
      destruct (Utils.is_trail d) eqn:Ht;
        [|cbn in Henc; by rewrite Hu, Hl, Ht in Henc].
      rewrite encode_pair in Henc by done.
      destruct (Utils.encodeURIComponent rest') as [r'|] eqn:Hr; [|done].
      apply Spec.wf_pair; [done | done |].
      by apply (IH (length rest') ltac:(cbn; lia) rest' r').
    + destruct (Utils.is_trail c) eqn:Ht;
        [cbn in Henc; by rewrite Hu, Hl, Ht in Henc|].
      rewrite encode_unit in Henc by done.
      destruct (Utils.encodeURIComponent rest) as [r'|] eqn:Hr; [|done].
      apply Spec.wf_unit; [done | done |].
      by apply (IH (length rest) ltac:(cbn; lia) rest r').
Qed.

Lemma createWhatsAppURL_encoded phone message encoded :
  message <> [] ->
  Utils.encodeURIComponent message = Js.Return encoded ->
  encoded <> [] ->
  Utils.createWhatsAppURL phone (Some message)
  = Js.Return (Js.lit "https://wa.me/" ++ Utils.formatWhatsAppNumber phone
               ++ Js.lit "?text=" ++ encoded).
Proof.
  intros Hm Henc He. unfold Utils.createWhatsAppURL.
  destruct message; [done|]. cbn [Utils.truthy_units]. rewrite Henc.
  by destruct encoded.
Qed.

(** C5, as the code has it.  For every phone-number string the builder
    keeps exactly the digits, in order, and puts them after
    [https://wa.me/] as a path segment; without a message, or with an empty
    one, that is the whole link; a non-empty message is appended as
    [?text=] followed by its percent-encoding, which is defined and
    non-empty unless the message has a lone surrogate, where URIError is
    raised.  Characters of the unescaped set, among them [!], are left as
    they are: for the phone ["+34 611 200787"] and the message ["Hi!"] the
    digits are ["34611200787"] and the link is
    [https://wa.me/34611200787?text=Hi!], without [?text=] when the message
    is empty. *)
Theorem whatsapp_link_builder :
  (forall phone : list N,
      Spec.subsequence_where (fun c => Utils.is_digit c = true) phone
        (Utils.formatWhatsAppNumber phone) /\
      Utils.createWhatsAppURL phone None
      = Js.Return (Js.lit "https://wa.me/" ++ Utils.formatWhatsAppNumber phone) /\
      Utils.createWhatsAppURL phone (Some [])
      = Js.Return (Js.lit "https://wa.me/" ++ Utils.formatWhatsAppNumber phone) /\
      (forall message,
          message <> [] -> Spec.well_formed message ->
          exists encoded,
            Utils.encodeURIComponent message = Js.Return encoded /\
            encoded <> [] /\
            Utils.createWhatsAppURL phone (Some message)
            = Js.Return
                (Js.lit "https://wa.me/" ++ Utils.formatWhatsAppNumber phone
                 ++ Js.lit "?text=" ++ encoded)) /\
      (forall message,
          ~ Spec.well_formed message ->
          Utils.createWhatsAppURL phone (Some message)
          = Js.Throw Js.URIError)) /\
  (forall message,
      Forall (fun c => Utils.unescaped c = true) message ->
      Utils.encodeURIComponent message = Js.Return message) /\
  Utils.formatWhatsAppNumber (Js.lit "+34 611 200787")
  = Js.lit "34611200787" /\
  Utils.createWhatsAppURL (Js.lit "+34 611 200787") (Some (Js.lit "Hi!"))
  = Js.Return (Js.lit "https://wa.me/34611200787?text=Hi!") /\
  Utils.createWhatsAppURL (Js.lit "+34 611 200787") (Some (Js.lit ""))
  = Js.Return (Js.lit "https://wa.me/34611200787").
Proof.
  split; [|split; [exact encode_unescaped_id | by vm_compute]].
  intros phone. split; [apply filter_subsequence_where|].
  split; [unfold Utils.createWhatsAppURL; cbn; by rewrite app_nil_r|].
  split; [unfold Utils.createWhatsAppURL; cbn; by rewrite app_nil_r|].
  split.
  - intros message Hne Hwf.
    destruct (encode_well_formed message Hwf) as (encoded & Henc & He).
    exists encoded. split; [done|]. split; [by apply He|].
    apply createWhatsAppURL_encoded; auto.
  - intros message Hnwf. unfold Utils.createWhatsAppURL.
    destruct message as [|c rest]; [destruct Hnwf; constructor|].
    cbn [Utils.truthy_units].
    destruct (Utils.encodeURIComponent (c :: rest)) as [r|e] eqn:Henc.
    + destruct Hnwf. by apply (encode_returns _ r).
    + by apply encode_throws in Henc as [-> _].
Qed.

Lemma whatsapp_link_builder_witness :
  exists encoded,
    Utils.encodeURIComponent (Js.lit "Hola, soy Ana") = Js.Return encoded /\
    encoded <> [] /\
    Utils.createWhatsAppURL (Js.lit "+34 611 200787")
      (Some (Js.lit "Hola, soy Ana"))
    = Js.Return
        (Js.lit "https://wa.me/"
         ++ Utils.formatWhatsAppNumber (Js.lit "+34 611 200787")
         ++ Js.lit "?text=" ++ encoded).
Proof.
  apply (proj1 whatsapp_link_builder (Js.lit "+34 611 200787")).
  - discriminate.
  - vm_compute.
    repeat (apply Spec.wf_unit; [reflexivity | reflexivity |]).
    apply Spec.wf_nil.
Defined.

(** C5 as stated fails on its own example: the link built for
    ["+34 611 200787"] and ["Hi!"] holds neither [phone=34611200787] nor
    [text=Hi%21]. *)
Lemma whatsapp_link_without_phone_parameter :
  exists url,
    Utils.createWhatsAppURL (Js.lit "+34 611 200787") (Some (Js.lit "Hi!"))
    = Js.Return url /\
    Utils.contains url (Js.lit "phone=34611200787") = false /\
    Utils.contains url (Js.lit "text=Hi%21") = false /\
    Utils.contains url (Js.lit "text=Hi!") = true.
Proof. eexists. split; [reflexivity|]. by vm_compute. Qed.

(** ** The typed-text cycler *)

Section Cycler.

Import AnimatedText.

Variable props : Props.

(** The transitions of [fire], one per branch of the callback. *)
Lemma fire_typing (m : Machine) target :
  pending m = Some EffectTimeout -> isDeleting (state m) = false ->
  texts props !! currentIndex (state m) = Some target ->
  length (currentText (state m)) < length target ->
  emitted props m = Some (take (length (currentText (state m)) + 1) target) /\
  fire props m
  = Js.Return
      {| state := {| currentIndex := currentIndex (state m);
                     currentText :=
                       take (length (currentText (state m)) + 1) target;
                     isDeleting := false |};
         pending := Some EffectTimeout |}.
Proof.
  intros Hp Hd Ht Hlt. apply Nat.ltb_lt in Hlt.
  unfold emitted, fire, callback. by rewrite Hp, Hd, Ht, Hlt.
Qed.

Lemma fire_typed (m : Machine) target :
  pending m = Some EffectTimeout -> isDeleting (state m) = false ->
  texts props !! currentIndex (state m) = Some target ->
  length target <= length (currentText (state m)) ->
  emitted props m = None /\
  fire props m = Js.Return {| state := state m; pending := Some PauseTimeout |}.
Proof.
  intros Hp Hd Ht Hle. apply Nat.ltb_ge in Hle.
  unfold emitted, fire, callback. by rewrite Hp, Hd, Ht, Hle.
Qed.

Lemma fire_pause (m : Machine) :
  pending m = Some PauseTimeout -> isDeleting (state m) = false ->
  emitted props m = None /\
  fire props m
  = Js.Return
      {| state := {| currentIndex := currentIndex (state m);
                     currentText := currentText (state m);
                     isDeleting := true |};
         pending := Some EffectTimeout |}.
Proof. intros Hp Hd. unfold emitted, fire. by rewrite Hp, Hd. Qed.

Lemma fire_deleting (m : Machine) :
  pending m = Some EffectTimeout -> isDeleting (state m) = true ->
  currentText (state m) <> [] ->
  emitted props m
  = Some (take (length (currentText (state m)) - 1) (currentText (state m))) /\
  fire props m
  = Js.Return
      {| state := {| currentIndex := currentIndex (state m);
                     currentText :=
                       take (length (currentText (state m)) - 1)
                         (currentText (state m));
                     isDeleting := true |};
         pending := Some EffectTimeout |}.
Proof.
  intros Hp Hd Hne. unfold emitted, fire, callback. rewrite Hp, Hd.
  by destruct (currentText (state m)).
Qed.

Lemma fire_next (m : Machine) :
  pending m = Some EffectTimeout -> isDeleting (state m) = true ->
  currentText (state m) = [] ->
  emitted props m = None /\
  fire props m
  = Js.Return
      {| state := {| currentIndex :=
                       (currentIndex (state m) + 1) mod length (texts props);
                     currentText := [];
                     isDeleting := false |};
         pending := Some EffectTimeout |}.
Proof.
  intros Hp Hd He. unfold emitted, fire, callback. by rewrite Hp, Hd, He.
Qed.

Lemma take_all_but_last {A : Type} (l : list A) :
  l <> [] -> exists ch, l = take (length l - 1) l ++ [ch].
Proof.
  intros Hne. destruct (exists_last Hne) as (l' & ch & ->).
  exists ch. rewrite length_app. cbn.
  replace (length l' + 1 - 1) with (length l') by lia.
  by rewrite take_app_length.
Qed.

Lemma take_next {A : Type} (cur target : list A) :
  cur `prefix_of` target -> length cur < length target ->
  exists ch,
    target !! length cur = Some ch /\
    take (length cur + 1) target = cur ++ [ch] /\
    cur ++ [ch] `prefix_of` target.
Proof.
  intros [k ->] Hlt. rewrite length_app in Hlt.
  destruct k as [|ch k]; [cbn in Hlt; lia|].
  exists ch. split; [|split].
  - by rewrite lookup_app_r, Nat.sub_diag.
  - by rewrite take_app_add.
  - exists k. by rewrite <- app_assoc.
Qed.

End Cycler.

Lemma cycler_fire_invariant (props : AnimatedText.Props)
    (m : AnimatedText.Machine) :
  Spec.cycler_invariant props m ->
  exists m',
    AnimatedText.fire props m = Js.Return m' /\
    Spec.cycler_invariant props m' /\
    Spec.cycler_step props m m'.
Proof.
  intros (Hidx & target & Htarget & Hprefix).
  destruct (AnimatedText.pending m) as [[]|] eqn:Hp.
  - (* the effect's timeout *)
    destruct (AnimatedText.isDeleting (AnimatedText.state m)) eqn:Hd.
    + destruct (AnimatedText.currentText (AnimatedText.state m))
        as [|c cur] eqn:Hcur.
      * destruct (fire_next props m Hp Hd Hcur) as [_ ->].
        eexists. split; [done|]. split.
        -- assert (length (AnimatedText.texts props) <> 0) as Hlen by lia.
           pose proof (Nat.mod_upper_bound
                         (AnimatedText.currentIndex (AnimatedText.state m) + 1)
                         _ Hlen) as Hlt.
           split; [exact Hlt|]. cbn.
           destruct (lookup_lt_is_Some_2 _ _ Hlt) as [t Ht].
           exists t. split; [done | apply prefix_nil].
        -- split; cbn; [left | right]; by rewrite Hcur.
      * assert (AnimatedText.currentText (AnimatedText.state m) <> [])
          as Hne by by rewrite Hcur.
        destruct (fire_deleting props m Hp Hd Hne) as [_ ->].
        destruct (take_all_but_last _ Hne) as [ch Hch].
        eexists. split; [done|]. split.
        -- split; [done|]. exists target. split; [done|]. cbn.
           etrans; [apply prefix_take | rewrite Hcur; exact Hprefix].
        -- split; cbn; [|by left]. right. right. split; [done|].
           exists ch. exact Hch.
    + destruct (decide (length (AnimatedText.currentText (AnimatedText.state m))
                        < length target)) as [Hlt|Hge].
      * destruct (fire_typing props m target Hp Hd Htarget Hlt) as [_ ->].
        destruct (take_next _ _ Hprefix Hlt) as (ch & Hch & Htake & Hpre).
        eexists. split; [done|]. split.
        -- split; [done|]. exists target. split; [done|]. cbn.
           by rewrite Htake.
        -- split; cbn; [|by left]. right. left. split; [done|].
           exists target, ch. by rewrite Htake.
      * destruct (fire_typed props m target Hp Hd Htarget ltac:(lia))
          as [_ ->].
        eexists. split; [done|]. split.
        -- split; [done|]. by exists target.
        -- split; by left.
  - (* the pause timeout *)
    destruct (AnimatedText.isDeleting (AnimatedText.state m)) eqn:Hd.
    + unfold AnimatedText.fire. rewrite Hp, Hd.
      eexists. split; [done|]. split.
      * split; [done|]. by exists target.
      * split; by left.
    + destruct (fire_pause props m Hp Hd) as [_ ->].
      eexists. split; [done|]. split.
      * split; [done|]. by exists target.
      * split; by left.
  - (* no timer *)
    unfold AnimatedText.fire. rewrite Hp.
    exists m. split; [done|]. split.
    + split; [done|]. by exists target.
    + split; by left.
Qed.

Lemma cycler_initial_invariant (props : AnimatedText.Props) :
  AnimatedText.texts props <> [] ->
  Spec.cycler_invariant props AnimatedText.initial.
Proof.
  intros Hne. destruct (AnimatedText.texts props) as [|t ts] eqn:Ht; [done|].
  split; cbn; [rewrite Ht; cbn; lia|].
  exists t. rewrite Ht. split; [done | apply prefix_nil].
Qed.

Lemma cycler_run_invariant (props : AnimatedText.Props) (n : nat)
    (m : AnimatedText.Machine) :
  Spec.cycler_invariant props m ->
  exists m',
    AnimatedText.run props n m = Js.Return m' /\
    Spec.cycler_invariant props m'.
Proof.
  revert m. induction n as [|n IH]; intros m Hinv; cbn.
  - by exists m.
  - destruct (cycler_fire_invariant props m Hinv) as (m1 & -> & Hinv1 & _).
    by apply IH.
Qed.

(** C10. For every non-empty sequence of texts the initial state satisfies
    the invariant that the index is below the number of texts and the
    accumulated substring is a prefix of the text at the index; every timer
    that fires returns a state that satisfies it again, in which typing has
    appended the next character of that text, deleting has removed the last
    character, and the index has advanced only from an empty substring; so
    the invariant holds after any number of timers. *)
Theorem cycler_invariant_preserved (props : AnimatedText.Props) :
  AnimatedText.texts props <> [] ->
  Spec.cycler_invariant props AnimatedText.initial /\
  (forall m,
      Spec.cycler_invariant props m ->
      exists m',
        AnimatedText.fire props m = Js.Return m' /\
        Spec.cycler_invariant props m' /\
        Spec.cycler_step props m m') /\
  (forall n,
      exists m,
        AnimatedText.run props n AnimatedText.initial = Js.Return m /\
        Spec.cycler_invariant props m).
Proof.
  intros Hne. split; [by apply cycler_initial_invariant|].
  split; [apply cycler_fire_invariant|].
  intros n. apply cycler_run_invariant. by apply cycler_initial_invariant.
Qed.

Lemma cycler_invariant_preserved_witness :
  exists m,
    AnimatedText.run Sample.cycler 7 AnimatedText.initial = Js.Return m /\
    Spec.cycler_invariant Sample.cycler m.
Proof.
  apply (cycler_invariant_preserved Sample.cycler); discriminate.
Defined.

(** C6. On ["A"; "BC"] with all delays zero one full cycle emits ["A"] and
    then [""] for the first text and ["B"], ["BC"], ["B"], [""] for the
    second, after which the machine is back in its initial state, at index
    0.  In general a deleting tick on a non-empty substring emits the
    substring without its last character and keeps deleting at the same
    index, and a deleting tick on the empty substring advances the index
    modulo the number of texts and returns to typing. *)
Theorem cycler_full_cycle :
  AnimatedText.trace Sample.cycler 12 AnimatedText.initial
  = [(0, Js.lit "A"); (0, Js.lit "");
     (1, Js.lit "B"); (1, Js.lit "BC"); (1, Js.lit "B"); (1, Js.lit "")] /\
  AnimatedText.run Sample.cycler 12 AnimatedText.initial
  = Js.Return AnimatedText.initial /\
  (forall (props : AnimatedText.Props) (m : AnimatedText.Machine),
      AnimatedText.pending m = Some AnimatedText.EffectTimeout ->
      AnimatedText.isDeleting (AnimatedText.state m) = true ->
      (AnimatedText.currentText (AnimatedText.state m) <> [] ->
       exists t ch,
         AnimatedText.currentText (AnimatedText.state m) = t ++ [ch] /\
         AnimatedText.emitted props m = Some t /\
         AnimatedText.fire props m
         = Js.Return
             {| AnimatedText.state :=
                  {| AnimatedText.currentIndex :=
                       AnimatedText.currentIndex (AnimatedText.state m);
                     AnimatedText.currentText := t;
                     AnimatedText.isDeleting := true |};
                AnimatedText.pending := Some AnimatedText.EffectTimeout |}) /\
      (AnimatedText.currentText (AnimatedText.state m) = [] ->
       AnimatedText.emitted props m = None /\
       AnimatedText.fire props m
       = Js.Return
           {| AnimatedText.state :=
                {| AnimatedText.currentIndex :=
                     (AnimatedText.currentIndex (AnimatedText.state m) + 1)
                       mod length (AnimatedText.texts props);
                   AnimatedText.currentText := [];
                   AnimatedText.isDeleting := false |};
              AnimatedText.pending := Some AnimatedText.EffectTimeout |})).
Proof.
  split; [by vm_compute|]. split; [by vm_compute|].
  intros props m Hp Hd. split.
  - intros Hne. destruct (take_all_but_last _ Hne) as [ch Hch].
    destruct (fire_deleting props m Hp Hd Hne) as [He Hf].
    by eexists _, ch.
  - by apply fire_next.
Qed.

Lemma cycler_full_cycle_witness :
  exists t ch,
    Js.lit "BC" = t ++ [ch] /\
    AnimatedText.emitted Sample.cycler Sample.deleting_BC = Some t /\
    AnimatedText.fire Sample.cycler Sample.deleting_BC
    = Js.Return
        {| AnimatedText.state :=
             {| AnimatedText.currentIndex := 1;
                AnimatedText.currentText := t;
                AnimatedText.isDeleting := true |};
           AnimatedText.pending := Some AnimatedText.EffectTimeout |}.
Proof.
  apply (proj1 (proj2 (proj2 cycler_full_cycle) Sample.cycler
                  Sample.deleting_BC eq_refl eq_refl)).
  discriminate.
Defined.

(** C8, as the code has it.  A text of length zero is not skipped at once:
    from the typing state at such a text the typing tick arms the pause, the
    pause timer starts the deleting, and the deleting tick advances the
    index modulo the number of texts and returns to typing; the three
    timers wait for typingSpeed, pauseTime and deletingSpeed, and none of
    them emits a substring. *)
Theorem cycler_empty_text (props : AnimatedText.Props)
    (m : AnimatedText.Machine) (i : nat) :
  AnimatedText.state m
  = {| AnimatedText.currentIndex := i; AnimatedText.currentText := [];
       AnimatedText.isDeleting := false |} ->
  AnimatedText.pending m = Some AnimatedText.EffectTimeout ->
  AnimatedText.texts props !! i = Some [] ->
  AnimatedText.trace props 3 m = [] /\
  AnimatedText.run props 3 m
  = Js.Return
      {| AnimatedText.state :=
           {| AnimatedText.currentIndex :=
                (i + 1) mod length (AnimatedText.texts props);
              AnimatedText.currentText := [];
              AnimatedText.isDeleting := false |};
         AnimatedText.pending := Some AnimatedText.EffectTimeout |} /\
  exists m1 m2,
    AnimatedText.fire props m = Js.Return m1 /\
    AnimatedText.fire props m1 = Js.Return m2 /\
    AnimatedText.state m1 = AnimatedText.state m /\
    AnimatedText.pending m1 = Some AnimatedText.PauseTimeout /\
    AnimatedText.state m2
    = {| AnimatedText.currentIndex := i; AnimatedText.currentText := [];
         AnimatedText.isDeleting := true |} /\
    AnimatedText.pending m2 = Some AnimatedText.EffectTimeout /\
    AnimatedText.delay props m = Some (AnimatedText.typingSpeed props) /\
    AnimatedText.delay props m1 = Some (AnimatedText.pauseTime props) /\
    AnimatedText.delay props m2 = Some (AnimatedText.deletingSpeed props).
Proof.
  destruct m as [s p]. cbn. intros -> -> Ht.
  unfold AnimatedText.trace, AnimatedText.run, AnimatedText.emitted,
    AnimatedText.fire, AnimatedText.callback, AnimatedText.delay.
  cbn. rewrite Ht. cbn. split; [done|]. split; [done|].
  eexists _, _. by repeat split.
Qed.

Lemma cycler_empty_text_witness :
  AnimatedText.trace Sample.blank_first 3 AnimatedText.initial = [] /\
  AnimatedText.run Sample.blank_first 3 AnimatedText.initial
  = Js.Return
      {| AnimatedText.state :=
           {| AnimatedText.currentIndex := 1;
              AnimatedText.currentText := [];
              AnimatedText.isDeleting := false |};
         AnimatedText.pending := Some AnimatedText.EffectTimeout |}.
Proof.
  destruct (cycler_empty_text Sample.blank_first AnimatedText.initial 0
              eq_refl eq_refl eq_refl) as (Htrace & Hrun & _).
  split; [exact Htrace | exact Hrun].
Defined.

(** C8 as stated fails on a cycler whose first text is empty: a typing tick
    of 100 ms is pending, and after it, and after the pause of 2000 ms that
    it arms, the machine is still at that text. *)
Lemma cycler_empty_text_not_skipped :
  AnimatedText.texts Sample.blank_first !! 0 = Some [] /\
  AnimatedText.delay Sample.blank_first AnimatedText.initial = Some 100%N /\
  AnimatedText.run Sample.blank_first 1 AnimatedText.initial
  = Js.Return
      {| AnimatedText.state := AnimatedText.state AnimatedText.initial;
         AnimatedText.pending := Some AnimatedText.PauseTimeout |} /\
  AnimatedText.run Sample.blank_first 2 AnimatedText.initial
  = Js.Return
      {| AnimatedText.state :=
           {| AnimatedText.currentIndex := 0;
              AnimatedText.currentText := [];
              AnimatedText.isDeleting := true |};
         AnimatedText.pending := Some AnimatedText.EffectTimeout |}.
Proof. by vm_compute. Qed.

(** * Part III: further properties of the code *)

(** ** encodeURIComponent *)

Lemma lor_lt_pow2 (a b n : N) :
  (a < 2 ^ n)%N -> (b < 2 ^ n)%N -> (N.lor a b < 2 ^ n)%N.
Proof.
  intros Ha Hb. destruct (N.eq_dec (N.lor a b) 0%N) as [->|Hne].
  - apply N.neq_0_lt_0, N.pow_nonzero. discriminate.
  - assert (a <> 0 \/ b <> 0)%N as Hab.
    { destruct (N.eq_dec a 0%N) as [->|]; [right | by left].
      by rewrite N.lor_0_l in Hne. }
    assert (0 < n)%N as Hn.
    { destruct (N.eq_dec n 0%N) as [->|]; [|lia]. cbn in Ha, Hb. lia. }
    apply N.log2_lt_pow2; [lia|]. rewrite N.log2_lor.
    assert (forall x, x < 2 ^ n -> N.log2 x < n)%N as Hlog.
    { intros x Hx. destruct (N.eq_dec x 0%N) as [->|]; [done|].
      apply N.log2_lt_pow2; lia. }
    apply N.max_lub_lt; by apply Hlog.
Qed.

Lemma continuation_octet (x : N) : (N.lor 0x80 (N.land x 0x3F) < 256)%N.
Proof.
  apply (lor_lt_pow2 _ _ 8); [done|].
  pose proof (N.land_le_r x 0x3F). cbn. lia.
Qed.

Lemma leading_octet (tag cp k bound : N) :
  (tag < 256)%N -> (bound < 256)%N -> (cp < bound * 2 ^ k)%N ->
  (N.lor tag (N.shiftr cp k) < 256)%N.
Proof.
  intros Ht Hb Hcp. apply (lor_lt_pow2 _ _ 8); [done|].
  rewrite N.shiftr_div_pow2.
  assert (cp / 2 ^ k < bound)%N; [|cbn; lia].
  apply N.Div0.div_lt_upper_bound. lia.
Qed.

Lemma utf8_octets (cp : N) :
  (cp < 0x110000)%N -> Forall (fun o => (o < 256)%N) (Utils.utf8 cp).
Proof.
  intros Hcp. unfold Utils.utf8.
  destruct (N.ltb_spec cp 0x80); [repeat constructor; lia|].
  destruct (N.ltb_spec cp 0x800).
  { repeat constructor; [|apply continuation_octet].
    apply (leading_octet _ _ _ 32); cbn; lia. }
  destruct (N.ltb_spec cp 0x10000).
  { repeat constructor; try apply continuation_octet.
    apply (leading_octet _ _ _ 16); cbn; lia. }
  repeat constructor; try apply continuation_octet.
  apply (leading_octet _ _ _ 5); cbn; lia.
Qed.

Lemma unescaped_digit (c : N) :
  Utils.is_digit c = true -> Utils.unescaped c = true.
Proof. intros H. unfold Utils.unescaped. rewrite H. by rewrite !orb_true_r. Qed.

Lemma unescaped_upper (c : N) : (65 <= c <= 90)%N -> Utils.unescaped c = true.
Proof.
  intros H. unfold Utils.unescaped.
  assert ((65 <=? c)%N && (c <=? 90)%N = true) as ->; [|done].
  rewrite andb_true_iff, !N.leb_le. lia.
Qed.

Lemma hex_digit_unescaped (n : N) :
  (n < 16)%N -> Utils.unescaped (Utils.hex_digit n) = true.
Proof.
  intros Hn. unfold Utils.hex_digit. destruct (N.ltb_spec n 10).
  - apply unescaped_digit. unfold Utils.is_digit.
    rewrite andb_true_iff, !N.leb_le. lia.
  - apply unescaped_upper. lia.
Qed.

Lemma percent_uri_chars (octet : N) :
  (octet < 256)%N -> Forall Spec.uri_char (Utils.percent octet).
Proof.
  intros Ho. unfold Utils.percent.
  rewrite !Forall_cons. split; [|split; [|split; [|constructor]]].
  - by right.
  - left. apply hex_digit_unescaped. apply N.Div0.div_lt_upper_bound. lia.
  - left. apply hex_digit_unescaped. by apply N.mod_lt.
Qed.

Lemma escape_uri_chars (cp : N) :
  (cp < 0x110000)%N -> Forall Spec.uri_char (Utils.escape cp).
Proof.
  intros Hcp. unfold Utils.escape. apply Forall_concat, Forall_forall.
  intros l Hl. apply list_elem_of_In, in_map_iff in Hl as (o & <- & Ho).
  apply percent_uri_chars.
  pose proof (utf8_octets cp Hcp) as Hall.
  rewrite Forall_forall in Hall. by apply Hall, list_elem_of_In.
Qed.

Lemma surrogate_pair_bound (hi lo : N) :
  Utils.is_lead hi = true -> Utils.is_trail lo = true ->
  (Utils.surrogate_pair hi lo < 0x110000)%N.
Proof.
  unfold Utils.is_lead, Utils.is_trail, Utils.surrogate_pair.
  rewrite !andb_true_iff, !N.leb_le. lia.
Qed.

Lemma encode_well_formed_uri_chars (s : list N) :
  Spec.well_formed s ->
  Forall (fun c => (c < 65536)%N) s ->
  exists encoded,
    Utils.encodeURIComponent s = Js.Return encoded /\
    Forall Spec.uri_char encoded.
Proof.
  induction 1 as [|c s Hl Ht Hwf IH|c d s Hl Ht Hwf IH]; intros Hunits.
  - by exists [].
  - apply Forall_cons in Hunits as [Hc Hunits].
    destruct (IH Hunits) as (r & Hr & Hall).
    destruct (Utils.unescaped c) eqn:Hu.
    + rewrite encode_unescaped, Hr by done. eexists. split; [done|].
      constructor; [by left | done].
    + rewrite encode_unit, Hr by done. eexists. split; [done|].
      apply Forall_app. split; [|done]. apply escape_uri_chars. lia.
  - apply Forall_cons in Hunits as [_ Hunits].
    apply Forall_cons in Hunits as [_ Hunits].
    destruct (IH Hunits) as (r & Hr & Hall).
    rewrite encode_pair, Hr by done. eexists. split; [done|].
    apply Forall_app. split; [|done].
    by apply escape_uri_chars, surrogate_pair_bound.
Qed.

(** X1. Whatever encodeURIComponent returns for a string of 16-bit code
    units is made of the never-escaped characters and the percent sign
    only; in particular it holds no space and none of [& = # ? / +], so a
    message cannot add a parameter to the link. *)
Theorem encodeURIComponent_uri_chars (s encoded : list N) :
  Forall (fun c => (c < 65536)%N) s ->
  Utils.encodeURIComponent s = Js.Return encoded ->
  Forall Spec.uri_char encoded /\
  forall c, c ∈ Js.lit " &=#?/+" -> c ∉ encoded.
Proof.
  intros Hunits Henc.
  destruct (encode_well_formed_uri_chars s (encode_returns _ _ Henc) Hunits)
    as (r & Hr & Hall).
  assert (r = encoded) as -> by congruence.
  split; [done|]. intros c Hc Hin.
  rewrite Forall_forall in Hall. specialize (Hall c Hin).
  apply list_elem_of_In in Hc. cbn in Hc. destruct Hall as [Hu | ->].
  - repeat (destruct Hc as [<- | Hc]; [by vm_compute in Hu|]). done.
  - repeat (destruct Hc as [Hc | Hc]; [discriminate|]). done.
Qed.

Lemma encodeURIComponent_uri_chars_witness :
  Forall Spec.uri_char (Js.lit "a%20b%26c%3D1") /\
  forall c, c ∈ Js.lit " &=#?/+" -> c ∉ Js.lit "a%20b%26c%3D1".
Proof.
  apply (encodeURIComponent_uri_chars (Js.lit "a b&c=1")).
  - vm_compute. repeat constructor.
  - reflexivity.
Defined.

Lemma well_formed_app (a b : list N) :
  Spec.well_formed a -> Spec.well_formed b -> Spec.well_formed (a ++ b).
Proof.
  induction 1; intros Hb; cbn; [done | |].
  - apply Spec.wf_unit; auto.
  - apply Spec.wf_pair; auto.
Qed.

(** X2. Encoding distributes over the concatenation of strings without
    lone surrogates: the encoding of [a ++ b] is the encoding of [a]
    followed by the encoding of [b]. *)
Theorem encodeURIComponent_app (a b : list N) :
  Spec.well_formed a -> Spec.well_formed b ->
  exists ra rb,
    Utils.encodeURIComponent a = Js.Return ra /\
    Utils.encodeURIComponent b = Js.Return rb /\
    Utils.encodeURIComponent (a ++ b) = Js.Return (ra ++ rb).
Proof.
  intros Ha Hb. destruct (encode_well_formed b Hb) as (rb & Hrb & _).
  induction Ha as [|c s Hl Ht Hwf (ra & rb' & Hra & Hrb' & IH)
                    |c d s Hl Ht Hwf (ra & rb' & Hra & Hrb' & IH)].
  - by exists [], rb.
  - assert (rb' = rb) as -> by congruence. cbn [app].
    destruct (Utils.unescaped c) eqn:Hu.
    + rewrite !encode_unescaped, Hra, IH by done. by eexists _, rb.
    + rewrite !encode_unit, Hra, IH by done. eexists _, rb.
      by rewrite app_assoc.
  - assert (rb' = rb) as -> by congruence. cbn [app].
    rewrite !encode_pair, Hra, IH by done. eexists _, rb.
    by rewrite app_assoc.
Qed.

Lemma encodeURIComponent_app_witness :
  exists ra rb,
    Utils.encodeURIComponent (Js.lit "Hola ") = Js.Return ra /\
    Utils.encodeURIComponent (Js.lit "Ana!") = Js.Return rb /\
    Utils.encodeURIComponent (Js.lit "Hola " ++ Js.lit "Ana!")
    = Js.Return (ra ++ rb).
Proof.
  apply encodeURIComponent_app; vm_compute;
    repeat (apply Spec.wf_unit; [reflexivity | reflexivity |]);
    apply Spec.wf_nil.
Defined.

(** X3. The link depends on the phone number through its digits only:
    formatting a number that is already formatted changes nothing, and the
    link built from the formatted number is the link built from the raw
    one. *)
Theorem createWhatsAppURL_formatted_phone
    (phone : list N) (message : option (list N)) :
  Utils.formatWhatsAppNumber (Utils.formatWhatsAppNumber phone)
  = Utils.formatWhatsAppNumber phone /\
  Utils.createWhatsAppURL (Utils.formatWhatsAppNumber phone) message
  = Utils.createWhatsAppURL phone message.
Proof.
  assert (Utils.formatWhatsAppNumber (Utils.formatWhatsAppNumber phone)
          = Utils.formatWhatsAppNumber phone) as H by apply filter_twice.
  split; [done|]. unfold Utils.createWhatsAppURL. by rewrite H.
Qed.

(** ** truncate *)

Lemma truncate_fits (str : list N) (n : Z) :
  (Z.of_nat (length str) <= n)%Z -> Utils.truncate str n = str.
Proof.
  intros H. unfold Utils.truncate. by rewrite (proj2 (Z.leb_le _ _) H).
Qed.

Lemma truncate_cut (str : list N) (n : Z) :
  (0 <= n < Z.of_nat (length str))%Z ->
  Utils.truncate str n = take (Z.to_nat n) str ++ Js.lit "...".
Proof.
  intros H. unfold Utils.truncate, Utils.slice_to.
  rewrite (proj2 (Z.leb_gt _ _)) by lia.
  by rewrite (proj2 (Z.ltb_ge _ _)) by lia.
Qed.

(** X4. [truncate] returns a string that fits unchanged.  A longer string
    is cut to its first [n] characters followed by three dots, so the
    result has [n + 3] characters, three more than asked for; for a
    negative [n] the cut drops the last [-n] characters instead. *)
Theorem truncate_result (str : list N) (n : Z) :
  ((Z.of_nat (length str) <= n)%Z -> Utils.truncate str n = str) /\
  ((0 <= n < Z.of_nat (length str))%Z ->
   Utils.truncate str n = take (Z.to_nat n) str ++ Js.lit "..." /\
   Z.of_nat (length (Utils.truncate str n)) = (n + 3)%Z) /\
  ((n < 0)%Z ->
   Utils.truncate str n
   = take (length str - Z.to_nat (- n)) str ++ Js.lit "...").
Proof.
  split; [apply truncate_fits|]. split.
  - intros H. rewrite truncate_cut by done. split; [done|].
    rewrite length_app, length_take. cbn. lia.
  - intros H. unfold Utils.truncate, Utils.slice_to.
    rewrite (proj2 (Z.leb_gt _ _)) by lia.
    rewrite (proj2 (Z.ltb_lt _ _)) by lia.
    do 2 f_equal. lia.
Qed.

Lemma truncate_result_witness :
  Utils.truncate (Js.lit "Hello world") 5 = Js.lit "Hello..." /\
  Z.of_nat (length (Utils.truncate (Js.lit "Hello world") 5)) = 8%Z.
Proof.
  apply (proj1 (proj2 (truncate_result (Js.lit "Hello world") 5))).
  cbn. lia.
Defined.

(** X5. For a length that is not negative, truncating twice is truncating
    once. *)
Theorem truncate_idempotent (str : list N) (n : Z) :
  (0 <= n)%Z ->
  Utils.truncate (Utils.truncate str n) n = Utils.truncate str n.
Proof.
  intros Hn. destruct (Z.le_gt_cases (Z.of_nat (length str)) n) as [Hle|Hgt].
  - rewrite (truncate_fits str n) by done. by apply truncate_fits.
  - rewrite (truncate_cut str n) by lia.
    assert (length (take (Z.to_nat n) str) = Z.to_nat n) as Hlen
      by (rewrite length_take; lia).
    rewrite truncate_cut by (rewrite length_app, Hlen; cbn; lia).
    f_equal. by rewrite take_app_length'.
Qed.

Lemma truncate_idempotent_witness :
  Utils.truncate (Utils.truncate (Js.lit "Hello world") 5) 5
  = Utils.truncate (Js.lit "Hello world") 5.
Proof. apply truncate_idempotent. lia. Defined.

(** ** slugify *)

Ltac char_arith :=
  unfold Spec.slug_char, Spec.upper_case, Utils.kept, Utils.is_sep,
    Utils.is_word, Utils.is_space, Utils.is_digit in *;
  rewrite ?orb_true_iff, ?andb_true_iff, ?orb_false_iff, ?andb_false_iff,
    ?N.leb_le, ?N.leb_gt, ?N.eqb_eq, ?N.eqb_neq in *;
  lia.

Lemma slug_char_not_space c : Spec.slug_char c -> Utils.is_space c = false.
Proof. intros H. char_arith. Qed.

Lemma slug_char_kept c : Spec.slug_char c -> Utils.kept c = true.
Proof. intros H. char_arith. Qed.

Lemma slug_char_sep c :
  Spec.slug_char c -> Utils.is_sep c = true <-> c = 45%N.
Proof.
  intros H. split.
  - intros Hs. char_arith.
  - by intros ->.
Qed.

Lemma kept_not_sep c :
  Utils.kept c = true -> Utils.is_sep c = false -> ~ Spec.upper_case c ->
  Spec.slug_char c /\ c <> 45%N.
Proof. intros Hk Hs Hu. char_arith. Qed.

Lemma drop_while_suffix p s :
  exists pre, s = pre ++ Utils.drop_while p s.
Proof.
  induction s as [|c s [pre IH]]; cbn; [by exists []|].
  destruct (p c); [|by exists []].
  exists (c :: pre). cbn. by f_equal.
Qed.

Lemma drop_while_head p s c l :
  Utils.drop_while p s = c :: l -> p c = false.
Proof.
  induction s as [|d s IH]; cbn; [done|].
  destruct (p d) eqn:Hd; [done|]. by intros [= <- _].
Qed.

Lemma drop_while_id p s :
  (forall c l, s = c :: l -> p c = false) -> Utils.drop_while p s = s.
Proof. destruct s as [|c l]; [done|]. intros H. cbn. by rewrite (H c l). Qed.

Lemma drop_while_Forall (P : N -> Prop) p s :
  Forall P s -> Forall P (Utils.drop_while p s).
Proof.
  destruct (drop_while_suffix p s) as [pre Hs]. intros H.
  rewrite Hs in H. by apply Forall_app in H as [_ H].
Qed.

(** What stripping both ends of [s] with [p] leaves: a middle part of [s]
    whose first and last elements do not satisfy [p]. *)
Lemma strip_both p s :
  let r := rev (Utils.drop_while p (rev (Utils.drop_while p s))) in
  (exists pre post, s = pre ++ r ++ post) /\
  (forall c l, r = c :: l -> p c = false) /\
  (forall c l, r = l ++ [c] -> p c = false).
Proof.
  set (t := Utils.drop_while p s).
  set (u := Utils.drop_while p (rev t)). cbn.
  destruct (drop_while_suffix p s) as [pre Hs]. fold t in Hs.
  destruct (drop_while_suffix p (rev t)) as [post Ht]. fold u in Ht.
  assert (t = rev u ++ rev post) as Ht'.
  { rewrite <- (rev_involutive t), Ht, rev_app_distr. done. }
  split; [|split].
  - exists pre, (rev post). by rewrite Hs, Ht'.
  - intros c l Hr. destruct (rev u) as [|c' l'] eqn:Hu; [done|].
    injection Hr as -> ->. rewrite Ht' in *. cbn in *.
    by eapply (drop_while_head p s).
  - intros c l Hr. apply (f_equal (@rev N)) in Hr.
    rewrite rev_involutive, rev_app_distr in Hr. cbn in Hr.
    by eapply (drop_while_head p (rev t)).
Qed.

Lemma strip_both_id p s :
  (forall c l, s = c :: l -> p c = false) ->
  (forall c l, s = l ++ [c] -> p c = false) ->
  rev (Utils.drop_while p (rev (Utils.drop_while p s))) = s.
Proof.
  intros Hh Hl. rewrite (drop_while_id p s) by done.
  rewrite drop_while_id; [apply rev_involutive|].
  intros c l Hr. apply (Hl c (rev l)).
  by rewrite <- (rev_involutive s), Hr.
Qed.

Lemma collapse_head s l : Utils.collapse true s <> 45%N :: l.
Proof.
  induction s as [|c s IH]; cbn; [done|].
  destruct (Utils.is_sep c) eqn:Hc; [done|].
  intros [= -> _]. done.
Qed.

Lemma collapse_no_double (b : bool) s l1 l2 :
  Utils.collapse b s <> l1 ++ 45%N :: 45%N :: l2.
Proof.
  revert b l1. induction s as [|c s IH]; intros b l1; cbn.
  - by destruct l1.
  - destruct (Utils.is_sep c) eqn:Hc.
    + destruct b; [apply IH|].
      destruct l1 as [|d l1]; cbn.
      * intros [= H]. by apply collapse_head in H.
      * intros [= _ H]. by apply IH in H.
    + destruct l1 as [|d l1]; cbn.
      * intros [= -> _]. done.
      * intros [= _ H]. by apply IH in H.
Qed.

Lemma collapse_chars (b : bool) s :
  Forall (fun c => Utils.kept c = true /\ ~ Spec.upper_case c) s ->
  Forall Spec.slug_char (Utils.collapse b s).
Proof.
  intros H. revert b. induction H as [|c s [Hk Hu] _ IH]; intros b; cbn.
  - constructor.
  - destruct (Utils.is_sep c) eqn:Hc.
    + destruct b; [apply IH|]. constructor; [|apply IH]. by right; right.
    + constructor; [|apply IH]. by apply kept_not_sep.
Qed.

Lemma collapse_id (b : bool) s :
  Forall Spec.slug_char s ->
  (forall l1 l2, s <> l1 ++ 45%N :: 45%N :: l2) ->
  (b = true -> forall l, s <> 45%N :: l) ->
  Utils.collapse b s = s.
Proof.
  intros H. revert b. induction H as [|c s Hc _ IH]; intros b Hdd Hb; cbn.
  - done.
  - destruct (Utils.is_sep c) eqn:Hs.
    + apply slug_char_sep in Hs as ->; [|done].
      destruct b; [by destruct (Hb eq_refl s)|].
      f_equal. apply IH.
      * intros l1 l2 ->. by apply (Hdd (45%N :: l1) l2).
      * intros _ l ->. by apply (Hdd [] l).
    + f_equal. apply IH.
      * intros l1 l2 ->. by apply (Hdd (c :: l1) l2).
      * done.
Qed.

Lemma filter_kept_Forall (P : N -> Prop) s :
  Forall P s ->
  Forall (fun c => Utils.kept c = true /\ P c) (List.filter Utils.kept s).
Proof.
  induction 1 as [|c s Hc _ IH]; cbn; [constructor|].
  destruct (Utils.kept c) eqn:Hk; [by constructor | done].
Qed.

Lemma filter_id {A : Type} (f : A -> bool) (l : list A) :
  Forall (fun x => f x = true) l -> List.filter f l = l.
Proof.
  induction 1 as [|x l Hx _ IH]; cbn; [done|]. by rewrite Hx, IH.
Qed.

Lemma trim_Forall (P : N -> Prop) s : Forall P s -> Forall P (Utils.trim s).
Proof.
  intros H. destruct (strip_both Utils.is_space s) as [(pre & post & Hs) _].
  unfold Utils.trim. rewrite Hs in H.
  by apply Forall_app in H as [_ [H _]%Forall_app].
Qed.

Lemma slug_last_char s c l :
  Forall Spec.slug_char s -> s = l ++ [c] -> Spec.slug_char c.
Proof.
  intros H ->. apply Forall_app in H as [_ H]. by apply Forall_cons in H as [H _].
Qed.

Lemma slug_shaped_fixed (s : list N) :
  Spec.slug_shaped s ->
  Utils.strip_dashes
    (Utils.collapse false (List.filter Utils.kept (Utils.trim s))) = s.
Proof.
  intros (Hchars & Hhead & Hlast & Hdd).
  assert (Utils.trim s = s) as ->.
  { apply strip_both_id.
    - intros c l ->. apply Forall_cons in Hchars as [Hc _].
      by apply slug_char_not_space.
    - intros c l Hs. apply slug_char_not_space. by eapply slug_last_char. }
  rewrite filter_id
    by (eapply Forall_impl; [exact Hchars | apply slug_char_kept]).
  rewrite collapse_id by done.
  apply strip_both_id.
  - intros c l ->. apply N.eqb_neq. intros <-. by apply (Hhead l).
  - intros c l ->. apply N.eqb_neq. intros <-. by apply (Hlast l).
Qed.

Section SlugifyProperties.

Variable toLowerCase : list N -> list N.

(** Lower-casing leaves no upper-case ASCII letter. *)
Hypothesis lower_case :
  forall s, Forall (fun c => ~ Spec.upper_case c) (toLowerCase s).

Lemma slugify_shaped (str : list N) :
  Spec.slug_shaped (Utils.slugify toLowerCase str).
Proof.
  unfold Utils.slugify, Utils.strip_dashes.
  set (t := Utils.collapse false
              (List.filter Utils.kept (Utils.trim (toLowerCase str)))).
  assert (Forall Spec.slug_char t) as Ht.
  { apply collapse_chars, filter_kept_Forall, trim_Forall, lower_case. }
  destruct (strip_both (N.eqb 45) t) as ((pre & post & Hs) & Hh & Hl).
  cbn in Hs, Hh, Hl.
  set (r := rev (Utils.drop_while (N.eqb 45)
                   (rev (Utils.drop_while (N.eqb 45) t)))) in *.
  split; [|split; [|split]].
  - rewrite Hs in Ht. by apply Forall_app in Ht as [_ [Ht _]%Forall_app].
  - intros l Hr. specialize (Hh _ _ Hr). by vm_compute in Hh.
  - intros l Hr. specialize (Hl _ _ Hr). by vm_compute in Hl.
  - intros l1 l2 Hr. rewrite Hr in Hs.
    apply (collapse_no_double false
             (List.filter Utils.kept (Utils.trim (toLowerCase str)))
             (pre ++ l1) (l2 ++ post)).
    fold t. rewrite Hs. by rewrite <- !app_assoc.
Qed.

(** Lower-casing changes nothing in a string of slug characters. *)
Hypothesis lower_case_slug :
  forall s, Forall Spec.slug_char s -> toLowerCase s = s.

Lemma slugify_fixed (s : list N) :
  Spec.slug_shaped s -> Utils.slugify toLowerCase s = s.
Proof.
  intros Hs. unfold Utils.slugify.
  rewrite lower_case_slug by apply Hs. by apply slug_shaped_fixed.
Qed.

End SlugifyProperties.

Lemma ascii_lower_no_upper (s : list N) :
  Forall (fun c => ~ Spec.upper_case c) (Utils.ascii_lower s).
Proof.
  unfold Utils.ascii_lower. apply Forall_forall. intros c Hc.
  apply list_elem_of_In, in_map_iff in Hc as (d & <- & _).
  unfold Spec.upper_case.
  destruct (N.leb_spec 65 d), (N.leb_spec d 90); cbn; lia.
Qed.

Lemma ascii_lower_slug (s : list N) :
  Forall Spec.slug_char s -> Utils.ascii_lower s = s.
Proof.
  unfold Utils.ascii_lower. induction 1 as [|c s Hc _ IH]; cbn; [done|].
  rewrite IH. f_equal. unfold Spec.slug_char in Hc.
  destruct (N.leb_spec 65 c), (N.leb_spec c 90); cbn; lia.
Qed.

(** X6. Whatever the input, [slugify] returns a slug: lower-case letters,
    digits and dashes only, no dash at either end and no two dashes in a
    row.  It holds for every lower-casing function that leaves no
    upper-case ASCII letter. *)
Theorem slugify_slug_shaped (toLowerCase : list N -> list N) (str : list N) :
  (forall s, Forall (fun c => ~ Spec.upper_case c) (toLowerCase s)) ->
  Spec.slug_shaped (Utils.slugify toLowerCase str).
Proof. intros H. by apply slugify_shaped. Qed.

Lemma slugify_slug_shaped_witness :
  Spec.slug_shaped
    (Utils.slugify Utils.ascii_lower (Js.lit "  Hello, World! -- Foo_Bar ")).
Proof. apply slugify_slug_shaped, ascii_lower_no_upper. Defined.

(** X7. [slugify] leaves a slug as it is, and so is idempotent; this needs
    of the lower-casing function also that it changes nothing in a string
    of slug characters. *)
Theorem slugify_idempotent (toLowerCase : list N -> list N) :
  (forall s, Forall (fun c => ~ Spec.upper_case c) (toLowerCase s)) ->
  (forall s, Forall Spec.slug_char s -> toLowerCase s = s) ->
  (forall s, Spec.slug_shaped s -> Utils.slugify toLowerCase s = s) /\
  (forall str,
      Utils.slugify toLowerCase (Utils.slugify toLowerCase str)
      = Utils.slugify toLowerCase str).
Proof.
  intros H1 H2. split.
  - intros s. by apply slugify_fixed.
  - intros str. apply slugify_fixed; [done|]. by apply slugify_shaped.
Qed.

Lemma slugify_idempotent_witness :
  Utils.slugify Utils.ascii_lower
    (Utils.slugify Utils.ascii_lower (Js.lit "Casa del Mar -- 2024"))
  = Utils.slugify Utils.ascii_lower (Js.lit "Casa del Mar -- 2024").
Proof.
  apply (proj2 (slugify_idempotent Utils.ascii_lower
                  ascii_lower_no_upper ascii_lower_slug)).
Defined.

(** ** formatNumber *)

Lemma string_of_uint_digits (u : Decimal.uint) :
  Forall (fun c => Utils.is_digit c = true)
    (Js.lit (NilEmpty.string_of_uint u)).
Proof. induction u; cbn; by constructor. Qed.

Lemma digit_run_digits (s : list N) :
  Forall (fun c => Utils.is_digit c = true) s -> Utils.digit_run s = length s.
Proof. induction 1 as [|c s Hc _ IH]; cbn; [done|]. by rewrite Hc, IH. Qed.

Lemma digit_is_word (c : N) : Utils.is_digit c = true -> Utils.is_word c = true.
Proof. intros H. unfold Utils.is_word. rewrite H. by rewrite !orb_true_r. Qed.

Lemma group_thousands_digits (s : list N) :
  Forall (fun c => Utils.is_digit c = true) s ->
  Utils.group_thousands true s
  = (if (0 <? length s)%nat && (length s mod 3 =? 0)%nat
     then [44%N] else []) ++ Spec.grouped s.
Proof.
  induction 1 as [|c s Hc Hs IH]; [done|].
  cbn [Utils.group_thousands Spec.grouped].
  rewrite (digit_run_digits (c :: s)) by by constructor.
  rewrite (digit_is_word c Hc), IH. cbn [andb]. f_equal. f_equal.
  by destruct ((0 <? length s)%nat && (length s mod 3 =? 0)%nat).
Qed.

Lemma group_thousands_number (s : list N) :
  Forall (fun c => Utils.is_digit c = true) s ->
  Utils.group_thousands false s = Spec.grouped s.
Proof.
  intros H. destruct H as [|c s Hc Hs]; [done|].
  cbn [Utils.group_thousands Spec.grouped andb app].
  rewrite (digit_is_word c Hc), group_thousands_digits by done. f_equal.
  by destruct ((0 <? length s)%nat && (length s mod 3 =? 0)%nat).
Qed.

Lemma grouped_digits (s : list N) :
  Forall (fun c => Utils.is_digit c = true) s ->
  List.filter (fun c => negb (c =? 44)%N) (Spec.grouped s) = s.
Proof.
  induction 1 as [|c s Hc _ IH]; [done|]. cbn [Spec.grouped List.filter].
  assert ((c =? 44)%N = false) as ->.
  { apply N.eqb_neq. intros ->. by vm_compute in Hc. }
  cbn [negb]. f_equal.
  destruct ((0 <? length s)%nat && (length s mod 3 =? 0)%nat); exact IH.
Qed.

Lemma grouped_length (s : list N) :
  length (Spec.grouped s) = length s + (length s - 1) / 3.
Proof.
  induction s as [|c s IH]; [done|]. cbn [Spec.grouped length].
  replace (S (length s) - 1) with (length s) by lia.
  pose proof (Nat.div_mod_eq (length s) 3) as H1.
  pose proof (Nat.div_mod_eq (length s - 1) 3) as H2.
  pose proof (Nat.mod_upper_bound (length s) 3 ltac:(lia)) as H3.
  pose proof (Nat.mod_upper_bound (length s - 1) 3 ltac:(lia)) as H4.
  destruct (Nat.ltb_spec 0 (length s)) as [Hpos|Hz];
    destruct (Nat.eqb_spec (length s mod 3) 0) as [Hm|Hm];
    cbn [andb length]; rewrite IH; lia.
Qed.

(** X8. For a natural number below 2^53 [formatNumber] groups the decimal
    digits in threes from the right: a comma follows exactly the digits
    that have a positive multiple of three digits after them; taking the
    commas out gives the digits back, and [d] digits get [(d - 1) / 3]
    commas. *)
Theorem formatNumber_groups (num : N) :
  (num < 2 ^ 53)%N ->
  Utils.formatNumber num = Spec.grouped (Utils.decimal num) /\
  List.filter (fun c => negb (c =? 44)%N) (Utils.formatNumber num)
  = Utils.decimal num /\
  length (Utils.formatNumber num)
  = length (Utils.decimal num) + (length (Utils.decimal num) - 1) / 3.
Proof.
  intros _. unfold Utils.formatNumber.
  pose proof (string_of_uint_digits (N.to_uint num)) as Hd.
  fold (Utils.decimal num) in Hd.
  rewrite group_thousands_number by done.
  split; [done|]. split; [by apply grouped_digits | apply grouped_length].
Qed.

Lemma formatNumber_groups_witness :
  Utils.formatNumber 1234567 = Spec.grouped (Utils.decimal 1234567) /\
  List.filter (fun c => negb (c =? 44)%N) (Utils.formatNumber 1234567)
  = Utils.decimal 1234567 /\
  length (Utils.formatNumber 1234567)
  = length (Utils.decimal 1234567) + (length (Utils.decimal 1234567) - 1) / 3.
Proof. apply formatNumber_groups. reflexivity. Defined.

(** ** The contact form's WhatsApp link *)

Lemma encode_concat (a b ra rb : list N) :
  Spec.well_formed a ->
  Utils.encodeURIComponent a = Js.Return ra ->
  Utils.encodeURIComponent b = Js.Return rb ->
  Utils.encodeURIComponent (a ++ b) = Js.Return (ra ++ rb).
Proof.
  intros Ha. revert ra.
  induction Ha as [|c s Hl Ht Hwf IH|c d s Hl Ht Hwf IH]; intros ra Hra Hrb.
  - injection Hra as <-. done.
  - cbn [app]. destruct (Utils.unescaped c) eqn:Hu.
    + rewrite encode_unescaped in Hra |- * by done.
      destruct (Utils.encodeURIComponent s) as [r|] eqn:Hr; [|done].
      injection Hra as <-. by rewrite (IH r eq_refl Hrb).
    + rewrite encode_unit in Hra |- * by done.
      destruct (Utils.encodeURIComponent s) as [r|] eqn:Hr; [|done].
      injection Hra as <-. rewrite (IH r eq_refl Hrb). by rewrite app_assoc.
  - cbn [app]. rewrite encode_pair in Hra |- * by done.
    destruct (Utils.encodeURIComponent s) as [r|] eqn:Hr; [|done].
    injection Hra as <-. rewrite (IH r eq_refl Hrb). by rewrite app_assoc.
Qed.

Ltac well_formed_literal :=
  vm_compute;
  repeat (apply Spec.wf_unit; [reflexivity | reflexivity |]);
  apply Spec.wf_nil.

(** X9. Whatever the visitor typed, as long as no field holds a lone
    surrogate, [handleSubmit] opens a link that carries a [text]
    parameter: the digits of the site's number, then [?text=] and the
    encoded greeting with the encoded name, phone, e-mail and message in
    their places.  The parameter is there even when every field is
    empty. *)
Theorem contact_form_link (whatsapp : list N)
    (formData : ContactSection.FormData) :
  Spec.well_formed (ContactSection.name formData) ->
  Spec.well_formed (ContactSection.phone formData) ->
  Spec.well_formed (ContactSection.email formData) ->
  Spec.well_formed (ContactSection.message formData) ->
  exists name phone email message,
    Utils.encodeURIComponent (ContactSection.name formData)
    = Js.Return name /\
    Utils.encodeURIComponent (ContactSection.phone formData)
    = Js.Return phone /\
    Utils.encodeURIComponent (ContactSection.email formData)
    = Js.Return email /\
    Utils.encodeURIComponent (ContactSection.message formData)
    = Js.Return message /\
    ContactSection.whatsappURL whatsapp formData
    = Js.Return
        (Js.lit "https://wa.me/" ++ Utils.formatWhatsAppNumber whatsapp
         ++ Js.lit "?text=" ++ Js.lit "Hola!%20Soy%20" ++ name
         ++ Js.lit ".%0ATel%C3%A9fono%3A%20" ++ phone
         ++ Js.lit "%0AEmail%3A%20" ++ email
         ++ Js.lit "%0A%0AMensaje%3A%20" ++ message).
Proof.
  intros Hn Hp He Hm.
  destruct (encode_well_formed _ Hn) as (name & Hname & _).
  destruct (encode_well_formed _ Hp) as (phone & Hphone & _).
  destruct (encode_well_formed _ He) as (email & Hemail & _).
  destruct (encode_well_formed _ Hm) as (message & Hmessage & _).
  exists name, phone, email, message. repeat (split; [done|]).
  set (A := Js.lit "Hola! Soy ").
  set (B := Js.lit "." ++ [10%N] ++ Js.lit "Tel" ++ [233%N] ++ Js.lit "fono: ").
  set (C := [10%N] ++ Js.lit "Email: ").
  set (D := [10%N; 10%N] ++ Js.lit "Mensaje: ").
  assert (ContactSection.whatsappMessage formData
          = A ++ ContactSection.name formData
            ++ B ++ ContactSection.phone formData
            ++ C ++ ContactSection.email formData
            ++ D ++ ContactSection.message formData) as Hmsg by reflexivity.
  assert (Utils.encodeURIComponent (ContactSection.whatsappMessage formData)
          = Js.Return
              (Js.lit "Hola!%20Soy%20" ++ name
               ++ Js.lit ".%0ATel%C3%A9fono%3A%20" ++ phone
               ++ Js.lit "%0AEmail%3A%20" ++ email
               ++ Js.lit "%0A%0AMensaje%3A%20" ++ message)) as Henc.
  { rewrite Hmsg.
    apply encode_concat; [subst A; well_formed_literal | reflexivity |].
    apply encode_concat; [done | done |].
    apply encode_concat; [subst B; well_formed_literal | reflexivity |].
    apply encode_concat; [done | done |].
    apply encode_concat; [subst C; well_formed_literal | reflexivity |].
    apply encode_concat; [done | done |].
    apply encode_concat; [subst D; well_formed_literal | reflexivity |].
    done. }
  unfold ContactSection.whatsappURL.
  apply createWhatsAppURL_encoded; [by rewrite Hmsg | done | done].
Qed.

Lemma contact_form_link_witness :
  exists name phone email message,
    Utils.encodeURIComponent (Js.lit "Ana") = Js.Return name /\
    Utils.encodeURIComponent (Js.lit "+34 600 000 000") = Js.Return phone /\
    Utils.encodeURIComponent (Js.lit "ana@example.com") = Js.Return email /\
    Utils.encodeURIComponent [] = Js.Return message /\
    ContactSection.whatsappURL (Js.lit "+34 611 200787")
      {| ContactSection.name := Js.lit "Ana";
         ContactSection.phone := Js.lit "+34 600 000 000";
         ContactSection.email := Js.lit "ana@example.com";
         ContactSection.message := [] |}
    = Js.Return
        (Js.lit "https://wa.me/"
         ++ Utils.formatWhatsAppNumber (Js.lit "+34 611 200787")
         ++ Js.lit "?text=" ++ Js.lit "Hola!%20Soy%20" ++ name
         ++ Js.lit ".%0ATel%C3%A9fono%3A%20" ++ phone
         ++ Js.lit "%0AEmail%3A%20" ++ email
         ++ Js.lit "%0A%0AMensaje%3A%20" ++ message).
Proof.
  apply (contact_form_link (Js.lit "+34 611 200787")
           {| ContactSection.name := Js.lit "Ana";
              ContactSection.phone := Js.lit "+34 600 000 000";
              ContactSection.email := Js.lit "ana@example.com";
              ContactSection.message := [] |});
    cbn [ContactSection.name ContactSection.phone ContactSection.email
         ContactSection.message];
    well_formed_literal.
Defined.

(** ** The typed-text cycler: whole texts *)

Section CyclerRuns.

Import AnimatedText.

Variable props : Props.

Lemma runs_sound n m m' tr t :
  Spec.runs props n m m' tr t ->
  run props n m = Js.Return m' /\
  trace props n m = tr /\
  elapsed props n m = t.
Proof.
  induction 1 as [m|n m m1 m2 d tr t Hd Hf _ (IHr & IHt & IHe)]; [done|].
  cbn. rewrite Hd, Hf. by rewrite IHr, IHt, IHe.
Qed.

Lemma runs_app a b m m1 m2 tr1 tr2 t1 t2 :
  Spec.runs props a m m1 tr1 t1 ->
  Spec.runs props b m1 m2 tr2 t2 ->
  Spec.runs props (a + b) m m2 (tr1 ++ tr2) (t1 + t2)%N.
Proof.
  induction 1 as [m|n m m0 m1 d tr t Hd Hf _ IH]; intros Hb; [done|].
  cbn [Nat.add]. rewrite <- app_assoc, <- N.add_assoc.
  eapply Spec.runs_fire; eauto.
Qed.

Lemma runs_one m m1 d :
  delay props m = Some d -> fire props m = Js.Return m1 ->
  Spec.runs props 1 m m1
    (match emitted props m with
     | Some text => [(currentIndex (state m), text)]
     | None => []
     end) d.
Proof.
  intros Hd Hf.
  pose proof (Spec.runs_fire props 0 m m1 m1 d [] 0%N Hd Hf
                (Spec.runs_done props m1)) as H.
  by rewrite app_nil_r, N.add_0_r in H.
Qed.

End CyclerRuns.

Section CyclerPhases.

Import AnimatedText.

Variable props : Props.

Lemma runs_step n m m1 m2 d e tr t tr' t' :
  delay props m = Some d -> fire props m = Js.Return m1 ->
  emitted props m = e ->
  Spec.runs props n m1 m2 tr t ->
  tr' = match e with
        | Some text => [(currentIndex (state m), text)]
        | None => []
        end ++ tr ->
  t' = (d + t)%N ->
  Spec.runs props (S n) m m2 tr' t'.
Proof. intros Hd Hf <- Hr -> ->. by eapply Spec.runs_fire. Qed.

Lemma runs_typing i text n k :
  texts props !! i = Some text -> k + n = length text ->
  Spec.runs props n
    (Spec.typing_state i (take k text)) (Spec.typing_state i text)
    (List.map (fun j => (i, take j text)) (seq (S k) n))
    (N.of_nat n * typingSpeed props)%N.
Proof.
  intros Ht. revert k. induction n as [|n IH]; intros k Hk.
  - rewrite take_ge by lia. constructor.
  - assert (length (take k text) = k) as Hlen by (rewrite length_take; lia).
    destruct (fire_typing props (Spec.typing_state i (take k text)) text
                eq_refl eq_refl Ht) as [He Hf]; [cbn; lia|].
    cbn [Spec.typing_state state currentText currentIndex] in He, Hf.
    rewrite Hlen, Nat.add_1_r in He, Hf.
    eapply runs_step; [reflexivity | exact Hf | exact He | apply (IH (S k)) | |].
    + lia.
    + done.
    + rewrite Nat2N.inj_succ, N.mul_succ_l. cbn. lia.
Qed.

Lemma runs_deleting i text k :
  k <= length text ->
  Spec.runs props k
    (Spec.deleting_state i (take k text)) (Spec.deleting_state i [])
    (List.map (fun j => (i, take j text)) (rev (seq 0 k)))
    (N.of_nat k * deletingSpeed props)%N.
Proof.
  induction k as [|k IH]; intros Hk.
  - rewrite take_0. constructor.
  - assert (length (take (S k) text) = S k) as Hlen
      by (rewrite length_take; lia).
    destruct (fire_deleting props (Spec.deleting_state i (take (S k) text))
                eq_refl eq_refl) as [He Hf].
    { cbn. intros H. by rewrite H in Hlen. }
    cbn [Spec.deleting_state state currentText currentIndex] in He, Hf.
    rewrite Hlen, take_take in He, Hf.
    replace ((S k - 1) `min` S k) with k in He, Hf by lia.
    eapply runs_step; [reflexivity | exact Hf | exact He | apply IH; lia | |].
    + by rewrite seq_S, rev_app_distr.
    + rewrite Nat2N.inj_succ, N.mul_succ_l. cbn. lia.
Qed.

Lemma runs_text i text :
  texts props !! i = Some text ->
  Spec.runs props (Spec.timers_of text)
    (Spec.typing_state i [])
    (Spec.typing_state ((i + 1) mod length (texts props)) [])
    (List.map (fun j => (i, take j text)) (seq 1 (length text))
     ++ List.map (fun j => (i, take j text)) (rev (seq 0 (length text))))
    ((N.of_nat (length text) + 1) * typingSpeed props + pauseTime props
     + (N.of_nat (length text) + 1) * deletingSpeed props)%N.
Proof.
  intros Ht.
  pose proof (runs_typing i text (length text) 0 Ht eq_refl) as Htyping.
  rewrite take_0 in Htyping.
  destruct (fire_typed props (Spec.typing_state i text) text
              eq_refl eq_refl Ht ltac:(done)) as [He1 Hf1].
  pose proof (runs_one props (Spec.typing_state i text) _ _ eq_refl Hf1)
    as Harm.
  rewrite He1 in Harm.
  destruct (fire_pause props
              {| state := state (Spec.typing_state i text);
                 pending := Some PauseTimeout |} eq_refl eq_refl)
    as [He2 Hf2].
  pose proof (runs_one props
                {| state := state (Spec.typing_state i text);
                   pending := Some PauseTimeout |} _ _ eq_refl Hf2)
    as Hpause.
  rewrite He2 in Hpause.
  pose proof (runs_deleting i text (length text) ltac:(done)) as Hdeleting.
  rewrite firstn_all in Hdeleting.
  destruct (fire_next props (Spec.deleting_state i []) eq_refl eq_refl
              eq_refl) as [He3 Hf3].
  pose proof (runs_one props (Spec.deleting_state i []) _ _ eq_refl Hf3)
    as Hnext.
  rewrite He3 in Hnext.
  pose proof (runs_app props _ _ _ _ _ _ _ _ _ Htyping
                (runs_app props _ _ _ _ _ _ _ _ _ Harm
                   (runs_app props _ _ _ _ _ _ _ _ _ Hpause
                      (runs_app props _ _ _ _ _ _ _ _ _ Hdeleting Hnext))))
    as H.
  cbn [app] in H. rewrite app_nil_r in H.
  replace (Spec.timers_of text)
    with (length text + (1 + (1 + (length text + 1))))
    by (unfold Spec.timers_of; lia).
  match type of H with
  | Spec.runs _ _ _ _ _ ?t =>
      match goal with
      | |- Spec.runs _ _ _ _ _ ?t' => replace t' with t by (cbn; lia)
      end
  end.
  exact H.
Qed.

End CyclerPhases.

(** X10. Every text is typed and deleted in full.  From the start of the
    text at index [i], [2 * length + 3] timers emit its prefixes of length
    1 up to the whole text and then back down to the empty string, and
    leave the cycler at the start of the next index modulo the number of
    texts; they wait for [(length + 1) * typingSpeed + pauseTime +
    (length + 1) * deletingSpeed] milliseconds. *)
Theorem cycler_text_cycle (props : AnimatedText.Props) (i : nat)
    (text : list N) :
  AnimatedText.texts props !! i = Some text ->
  AnimatedText.run props (2 * length text + 3) (Spec.typing_state i [])
  = Js.Return
      (Spec.typing_state ((i + 1) mod length (AnimatedText.texts props)) []) /\
  AnimatedText.trace props (2 * length text + 3) (Spec.typing_state i [])
  = List.map (fun j => (i, take j text)) (seq 1 (length text))
    ++ List.map (fun j => (i, take j text)) (rev (seq 0 (length text))) /\
  AnimatedText.elapsed props (2 * length text + 3) (Spec.typing_state i [])
  = ((N.of_nat (length text) + 1) * AnimatedText.typingSpeed props
     + AnimatedText.pauseTime props
     + (N.of_nat (length text) + 1) * AnimatedText.deletingSpeed props)%N.
Proof. intros Ht. exact (runs_sound props _ _ _ _ _ (runs_text props i text Ht)). Qed.

Lemma cycler_text_cycle_witness :
  AnimatedText.run Sample.cycler (2 * length (Js.lit "BC") + 3)
    (Spec.typing_state 1 [])
  = Js.Return
      (Spec.typing_state
         ((1 + 1) mod length (AnimatedText.texts Sample.cycler)) []).
Proof.
  apply (proj1 (cycler_text_cycle Sample.cycler 1 (Js.lit "BC") eq_refl)).
Defined.

Lemma runs_pass (props : AnimatedText.Props) (rest : list (list N)) :
  forall i,
    drop i (AnimatedText.texts props) = rest -> rest <> [] ->
    exists tr t,
      Spec.runs props (Spec.period rest) (Spec.typing_state i [])
        AnimatedText.initial tr t.
Proof.
  induction rest as [|text rest IH]; intros i Hdrop Hne; [done|].
  assert (AnimatedText.texts props !! i = Some text) as Ht.
  { pose proof (lookup_drop (AnimatedText.texts props) i 0) as H.
    rewrite Hdrop, Nat.add_0_r in H. by rewrite <- H. }
  assert (drop (S i) (AnimatedText.texts props) = rest) as Hrest.
  { rewrite (drop_S _ _ _ Ht) in Hdrop. by injection Hdrop. }
  pose proof (runs_text props i text Ht) as Htext.
  pose proof (f_equal length Hdrop) as Hlen.
  rewrite length_drop in Hlen. cbn in Hlen.
  cbn [Spec.period foldr]. destruct rest as [|text' rest'].
  - cbn in Hlen.
    replace ((i + 1) mod length (AnimatedText.texts props)) with 0 in Htext
      by (replace (i + 1) with (length (AnimatedText.texts props)) by lia;
          by rewrite Nat.Div0.mod_same).
    rewrite Nat.add_0_r. by eexists _, _.
  - cbn in Hlen.
    rewrite Nat.mod_small, Nat.add_1_r in Htext by lia.
    destruct (IH (S i) Hrest ltac:(done)) as (tr & t & Hruns).
    eexists _, _. by eapply runs_app.
Qed.

Lemma run_app (props : AnimatedText.Props) a b m m' :
  AnimatedText.run props a m = Js.Return m' ->
  AnimatedText.run props (a + b) m = AnimatedText.run props b m'.
Proof.
  revert m. induction a as [|a IH]; intros m; cbn.
  - by intros [= ->].
  - destruct (AnimatedText.fire props m) as [m1|]; [apply IH | done].
Qed.

(** X11. The animation is periodic: for a non-empty list of texts, the
    timers of one pass through all of them, [2 * length + 3] for each,
    bring the cycler back to its initial state, and so does any number of
    passes. *)
Theorem cycler_periodic (props : AnimatedText.Props) :
  AnimatedText.texts props <> [] ->
  forall passes,
    AnimatedText.run props
      (passes * Spec.period (AnimatedText.texts props)) AnimatedText.initial
    = Js.Return AnimatedText.initial.
Proof.
  intros Hne.
  destruct (runs_pass props (AnimatedText.texts props) 0 eq_refl Hne)
    as (tr & t & Hruns).
  apply runs_sound in Hruns as [Hrun _].
  induction passes as [|passes IH]; [done|].
  cbn [Nat.mul]. rewrite (run_app _ _ _ _ _ Hrun). exact IH.
Qed.

Lemma cycler_periodic_witness :
  AnimatedText.run Sample.cycler
    (3 * Spec.period (AnimatedText.texts Sample.cycler)) AnimatedText.initial
  = Js.Return AnimatedText.initial.
Proof. apply cycler_periodic. discriminate. Defined.

Lemma cycler_fire_live (props : AnimatedText.Props) m m' :
  Spec.cycler_live m ->
  AnimatedText.fire props m = Js.Return m' ->
  Spec.cycler_live m'.
Proof.
  unfold Spec.cycler_live, AnimatedText.fire, AnimatedText.callback.
  intros [Hp | [Hp Hd]]; rewrite Hp; [|rewrite Hd; intros [= <-]; by left].
  destruct (AnimatedText.isDeleting (AnimatedText.state m)) eqn:Hd; cbn.
  - match goal with |- context [if ?b then _ else _] => destruct b end;
      intros [= <-]; by left.
  - destruct (AnimatedText.texts props !! _) as [target|]; [|done].
    match goal with |- context [if ?b then _ else _] => destruct b end;
      intros [= <-]; [by left | by right].
Qed.

(** X12. The animation never stops and never fails: for a non-empty list of
    texts, after any number of timers the cycler is in a state that
    satisfies its invariant and has a timer pending. *)
Theorem cycler_never_stops (props : AnimatedText.Props) (n : nat) :
  AnimatedText.texts props <> [] ->
  exists m d,
    AnimatedText.run props n AnimatedText.initial = Js.Return m /\
    Spec.cycler_invariant props m /\
    AnimatedText.delay props m = Some d.
Proof.
  intros Hne.
  assert (forall k m,
             Spec.cycler_invariant props m -> Spec.cycler_live m ->
             exists m',
               AnimatedText.run props k m = Js.Return m' /\
               Spec.cycler_invariant props m' /\ Spec.cycler_live m') as H.
  { induction k as [|k IH]; intros m Hinv Hlive; cbn.
    - by exists m.
    - destruct (cycler_fire_invariant props m Hinv) as (m1 & Hf & Hinv1 & _).
      rewrite Hf. apply IH; [done|]. by eapply cycler_fire_live. }
  destruct (H n AnimatedText.initial) as (m & Hrun & Hinv & Hlive).
  - by apply cycler_initial_invariant.
  - by left.
  - assert (exists d, AnimatedText.delay props m = Some d) as [d Hd].
    { unfold AnimatedText.delay.
      destruct Hlive as [Hp | [Hp _]]; rewrite Hp; eauto. }
    by exists m, d.
Qed.

Lemma cycler_never_stops_witness :
  exists m d,
    AnimatedText.run Sample.blank_first 100 AnimatedText.initial
    = Js.Return m /\
    Spec.cycler_invariant Sample.blank_first m /\
    AnimatedText.delay Sample.blank_first m = Some d.
Proof. apply cycler_never_stops. discriminate. Defined.

(** ** The lightbox of the gallery *)

Section Lightbox.

Import Gallery.

Variable images : list string.

Lemma image_at_nat (j : nat) : image_at images (Z.of_nat j) = images !! j.
Proof.
  unfold image_at. rewrite (proj2 (Z.ltb_ge _ _)) by lia. by rewrite Nat2Z.id.
Qed.

Lemma open_showing (lb : Lightbox) :
  Spec.lightbox_invariant images lb -> is_open lb = true ->
  exists j, j < length images /\ lb = Spec.showing images j.
Proof.
  intros [Hnone | [Hrange Hsel]] Hopen.
  - unfold is_open in Hopen. by rewrite Hnone in Hopen.
  - exists (Z.to_nat (imageIndex lb)). split; [lia|].
    destruct lb as [sel idx]. cbn in *. unfold Spec.showing.
    rewrite Z2Nat.id by lia. by rewrite Hsel.
Qed.

Lemma showing_invariant (j : nat) :
  j < length images -> Spec.lightbox_invariant images (Spec.showing images j).
Proof.
  intros Hj. right. cbn. split; [lia|]. by rewrite Nat2Z.id.
Qed.

Lemma next_showing (j : nat) :
  j < length images ->
  next images (Spec.showing images j)
  = Spec.showing images ((j + 1) mod length images).
Proof.
  intros Hj. unfold next, Spec.showing. cbn [imageIndex].
  destruct (Z.ltb_spec (Z.of_nat j) (Z.of_nat (length images) - 1)) as [Hlt|Hge].
  - rewrite Nat.mod_small by lia.
    replace (Z.of_nat j + 1)%Z with (Z.of_nat (j + 1)) by lia.
    by rewrite image_at_nat.
  - replace (j + 1) with (length images) by lia.
    rewrite Nat.Div0.mod_same. change 0%Z with (Z.of_nat 0).
    by rewrite image_at_nat.
Qed.

Lemma previous_showing (j : nat) :
  j < length images ->
  previous images (Spec.showing images j)
  = Spec.showing images ((j + (length images - 1)) mod length images).
Proof.
  intros Hj. unfold previous, Spec.showing. cbn [imageIndex].
  destruct (Z.ltb_spec 0 (Z.of_nat j)) as [Hpos|Hzero].
  - replace (j + (length images - 1)) with (j - 1 + 1 * length images) by lia.
    rewrite Nat.Div0.mod_add, Nat.mod_small by lia.
    replace (Z.of_nat j - 1)%Z with (Z.of_nat (j - 1)) by lia.
    by rewrite image_at_nat.
  - replace j with 0 by lia. rewrite Nat.add_0_l, Nat.mod_small by lia.
    replace (Z.of_nat (length images) - 1)%Z
      with (Z.of_nat (length images - 1)) by lia.
    by rewrite image_at_nat.
Qed.

Lemma handle_invariant (lb : Lightbox) (e : Event) :
  Spec.lightbox_invariant images lb ->
  Spec.lightbox_invariant images (handle images lb e).
Proof.
  intros Hinv.
  assert (is_open lb = true ->
          Spec.lightbox_invariant images (next images lb) /\
          Spec.lightbox_invariant images (previous images lb)) as Hmove.
  { intros Hopen. destruct (open_showing lb Hinv Hopen) as (j & Hj & ->).
    rewrite next_showing, previous_showing by done.
    split; apply showing_invariant; apply Nat.mod_upper_bound; lia. }
  destruct e as [index|key| | |]; cbn.
  - destruct (images !! index) as [image|] eqn:Hi; [|done].
    right. cbn. apply lookup_lt_Some in Hi as Hlt.
    split; [lia|]. by rewrite Nat2Z.id.
  - destruct (is_open lb) eqn:Hopen; cbn; [|done].
    destruct (String.eqb key "Escape"); [by left|].
    destruct (String.eqb key "ArrowLeft"); [by apply Hmove|].
    destruct (String.eqb key "ArrowRight"); [by apply Hmove | done].
  - destruct (is_open lb) eqn:Hopen; [by apply Hmove | done].
  - destruct (is_open lb) eqn:Hopen; [by apply Hmove | done].
  - destruct (is_open lb); [by left | done].
Qed.

End Lightbox.

(** X13. Whatever the visitor clicks and presses, the lightbox stays
    consistent with the gallery: it is closed, or its index is within the
    gallery and it shows the image at that index, so the counter
    [imageIndex + 1 / gallery.length] never leaves its range. *)
Theorem lightbox_consistent (images : list string)
    (events : list Gallery.Event) :
  let lb := fold_left (Gallery.handle images) events Gallery.closed in
  Spec.lightbox_invariant images lb /\
  (Gallery.is_open lb = true ->
   (1 <= Gallery.imageIndex lb + 1 <= Z.of_nat (length images))%Z /\
   Gallery.selectedImage lb
   = images !! Z.to_nat (Gallery.imageIndex lb)).
Proof.
  cbn zeta.
  assert (forall lb,
             Spec.lightbox_invariant images lb ->
             Spec.lightbox_invariant images
               (fold_left (Gallery.handle images) events lb)) as H.
  { induction events as [|e events IH]; intros lb Hinv; [done|].
    cbn. by apply IH, handle_invariant. }
  specialize (H Gallery.closed (or_introl eq_refl)).
  split; [done|]. intros Hopen.
  destruct H as [Hnone | [Hrange Hsel]].
  - unfold Gallery.is_open in Hopen. by rewrite Hnone in Hopen.
  - split; [lia | done].
Qed.

Lemma lightbox_consistent_witness :
  (1 <= Gallery.imageIndex
          (fold_left (Gallery.handle ["a.jpg"; "b.jpg"])
             [Gallery.ClickImage 0; Gallery.KeyDown "ArrowLeft"]
             Gallery.closed) + 1
   <= Z.of_nat (length ["a.jpg"; "b.jpg"]))%Z /\
  Gallery.selectedImage
    (fold_left (Gallery.handle ["a.jpg"; "b.jpg"])
       [Gallery.ClickImage 0; Gallery.KeyDown "ArrowLeft"] Gallery.closed)
  = ["a.jpg"; "b.jpg"]
    !! Z.to_nat
         (Gallery.imageIndex
            (fold_left (Gallery.handle ["a.jpg"; "b.jpg"])
               [Gallery.ClickImage 0; Gallery.KeyDown "ArrowLeft"]
               Gallery.closed)).
Proof.
  apply (proj2 (lightbox_consistent ["a.jpg"; "b.jpg"]
                  [Gallery.ClickImage 0; Gallery.KeyDown "ArrowLeft"])).
  reflexivity.
Defined.

Section LightboxMoves.

Import Gallery.

Variable images : list string.
Hypothesis images_named : Forall (fun image => image <> "") images.

Lemma showing_open (j : nat) :
  j < length images -> is_open (Spec.showing images j) = true.
Proof.
  intros Hj. unfold is_open, Spec.showing. cbn.
  destruct (lookup_lt_is_Some_2 images j Hj) as [image Hi]. rewrite Hi.
  apply truthy_string_nonempty.
  rewrite Forall_forall in images_named. apply images_named.
  by eapply list_elem_of_lookup_2.
Qed.

Lemma click_next_showing (j : nat) :
  j < length images ->
  handle images (Spec.showing images j) ClickNext
  = Spec.showing images ((j + 1) mod length images) /\
  handle images (Spec.showing images j) (KeyDown "ArrowRight")
  = Spec.showing images ((j + 1) mod length images).
Proof.
  intros Hj. cbn. rewrite showing_open by done. cbn.
  by rewrite next_showing.
Qed.

Lemma click_previous_showing (j : nat) :
  j < length images ->
  handle images (Spec.showing images j) ClickPrevious
  = Spec.showing images ((j + (length images - 1)) mod length images) /\
  handle images (Spec.showing images j) (KeyDown "ArrowLeft")
  = Spec.showing images ((j + (length images - 1)) mod length images).
Proof.
  intros Hj. cbn. rewrite showing_open by done. cbn.
  by rewrite previous_showing.
Qed.

Lemma next_previous_index (j : nat) :
  j < length images ->
  ((j + 1) mod length images + (length images - 1)) mod length images = j /\
  ((j + (length images - 1)) mod length images + 1) mod length images = j.
Proof.
  intros Hj. rewrite !Nat.Div0.add_mod_idemp_l.
  replace (j + 1 + (length images - 1)) with (j + 1 * length images) by lia.
  replace (j + (length images - 1) + 1) with (j + 1 * length images) by lia.
  rewrite Nat.Div0.mod_add, Nat.mod_small by lia. done.
Qed.

Lemma next_times (k j : nat) :
  j < length images ->
  fold_left (handle images) (replicate k ClickNext) (Spec.showing images j)
  = Spec.showing images ((j + k) mod length images).
Proof.
  revert j. induction k as [|k IH]; intros j Hj; cbn [replicate fold_left].
  - by rewrite Nat.add_0_r, Nat.mod_small.
  - rewrite (proj1 (click_next_showing j Hj)).
    rewrite IH by (apply Nat.mod_upper_bound; lia).
    rewrite Nat.Div0.add_mod_idemp_l. do 2 f_equal. lia.
Qed.

End LightboxMoves.

(** X14. In an open lightbox over a gallery without empty image names,
    going to the next image and then to the previous one, or the other way
    round, by the buttons or by the arrow keys, leads back to the same
    image. *)
Theorem lightbox_next_previous (images : list string)
    (lb : Gallery.Lightbox) :
  Forall (fun image => image <> "") images ->
  Spec.lightbox_invariant images lb ->
  Gallery.is_open lb = true ->
  Gallery.handle images (Gallery.handle images lb Gallery.ClickNext)
    Gallery.ClickPrevious = lb /\
  Gallery.handle images (Gallery.handle images lb Gallery.ClickPrevious)
    Gallery.ClickNext = lb /\
  Gallery.handle images
    (Gallery.handle images lb (Gallery.KeyDown "ArrowRight"))
    (Gallery.KeyDown "ArrowLeft") = lb /\
  Gallery.handle images
    (Gallery.handle images lb (Gallery.KeyDown "ArrowLeft"))
    (Gallery.KeyDown "ArrowRight") = lb.
Proof.
  intros Hnamed Hinv Hopen.
  destruct (open_showing images lb Hinv Hopen) as (j & Hj & ->).
  assert ((j + 1) mod length images < length images) as Hn
    by (apply Nat.mod_upper_bound; lia).
  assert ((j + (length images - 1)) mod length images < length images) as Hp
    by (apply Nat.mod_upper_bound; lia).
  destruct (click_next_showing images Hnamed j Hj) as [-> ->].
  destruct (click_previous_showing images Hnamed j Hj) as [-> ->].
  destruct (click_previous_showing images Hnamed _ Hn) as [-> ->].
  destruct (click_next_showing images Hnamed _ Hp) as [-> ->].
  destruct (next_previous_index images j Hj) as [-> ->]. done.
Qed.

Lemma lightbox_next_previous_witness :
  Gallery.handle ["a.jpg"; "b.jpg"; "c.jpg"]
    (Gallery.handle ["a.jpg"; "b.jpg"; "c.jpg"]
       (Spec.showing ["a.jpg"; "b.jpg"; "c.jpg"] 2) Gallery.ClickNext)
    Gallery.ClickPrevious
  = Spec.showing ["a.jpg"; "b.jpg"; "c.jpg"] 2.
Proof.
  apply (lightbox_next_previous ["a.jpg"; "b.jpg"; "c.jpg"]
           (Spec.showing ["a.jpg"; "b.jpg"; "c.jpg"] 2)).
  - repeat constructor; discriminate.
  - right. cbn. split; [lia | reflexivity].
  - reflexivity.
Defined.

(** X15. The gallery is a ring: in an open lightbox over a gallery without
    empty image names, as many steps to the next image as the gallery has
    images lead back to the image the lightbox started from. *)
Theorem lightbox_full_turn (images : list string) (lb : Gallery.Lightbox) :
  Forall (fun image => image <> "") images ->
  Spec.lightbox_invariant images lb ->
  Gallery.is_open lb = true ->
  fold_left (Gallery.handle images)
    (replicate (length images) Gallery.ClickNext) lb = lb.
Proof.
  intros Hnamed Hinv Hopen.
  destruct (open_showing images lb Hinv Hopen) as (j & Hj & ->).
  rewrite next_times by done.
  replace (j + length images) with (j + 1 * length images) by lia.
  by rewrite Nat.Div0.mod_add, Nat.mod_small.
Qed.

Lemma lightbox_full_turn_witness :
  fold_left (Gallery.handle ["a.jpg"; "b.jpg"; "c.jpg"])
    (replicate (length ["a.jpg"; "b.jpg"; "c.jpg"]) Gallery.ClickNext)
    (Spec.showing ["a.jpg"; "b.jpg"; "c.jpg"] 1)
  = Spec.showing ["a.jpg"; "b.jpg"; "c.jpg"] 1.
Proof.
  apply lightbox_full_turn.
  - repeat constructor; discriminate.
  - right. cbn. split; [lia | reflexivity].
  - reflexivity.
Defined.

(** ** The tab labels *)

Lemma tabLabels_keys (locale : string) :
  is_Some (Gallery.tabLabels !! locale) <-> locale ∈ ["en"; "es"; "pt"].
Proof.
  rewrite list_elem_of_In. cbn. unfold Gallery.tabLabels. split.
  - intros Hl.
    destruct (decide (locale = "en")) as [->|Hen]; [by left|].
    destruct (decide (locale = "es")) as [->|Hes]; [by right; left|].
    destruct (decide (locale = "pt")) as [->|Hpt]; [by right; right; left|].
    rewrite !lookup_insert_ne, lookup_singleton_ne in Hl by done.
    by destruct Hl.
  - intros [<- | [<- | [<- | []]]]; by eexists.
Qed.

Lemma prototype_name_no_label (locale : string) :
  locale ∈ Js.prototype_names -> Gallery.tabLabels !! locale = None.
Proof.
  intros H. apply list_elem_of_In in H. cbn in H.
  repeat (destruct H as [<- | H]; [reflexivity|]). done.
Qed.

(** X16. The tab labels follow the locale string.  Each of ["en"], ["es"]
    and ["pt"] gets its own set, the Spanish one starting with "Resumen"
    and the Portuguese one with "Resumo"; a string that is none of them
    and no name inherited from [Object.prototype] gets the English set;
    under an inherited name such as ["toString"] the lookup yields the
    inherited value and every tab label is undefined. *)
Theorem tab_labels_fallback :
  (forall locale labels,
      Gallery.tabLabels !! locale = Some labels ->
      Gallery.currentLabels locale = Js.Own labels) /\
  (forall locale, is_Some (Gallery.tabLabels !! locale) <->
                  locale ∈ ["en"; "es"; "pt"]) /\
  List.map snd (Gallery.tabs "en")
  = [Some "Overview"; Some "Challenge"; Some "Strategy"; Some "Results";
     Some "Gallery"] /\
  List.map snd (Gallery.tabs "es")
  = [Some "Resumen"; Some "Desafío"; Some "Estrategia"; Some "Resultados";
     Some "Galería"] /\
  List.map snd (Gallery.tabs "pt")
  = [Some "Resumo"; Some "Desafio"; Some "Estratégia"; Some "Resultados";
     Some "Galeria"] /\
  (forall locale,
      locale ∉ ["en"; "es"; "pt"] -> locale ∉ Js.prototype_names ->
      Gallery.currentLabels locale = Gallery.currentLabels "en" /\
      Gallery.tabs locale = Gallery.tabs "en") /\
  (forall locale,
      locale ∈ Js.prototype_names ->
      Gallery.currentLabels locale = Js.Inherited locale /\
      List.map snd (Gallery.tabs locale) = [None; None; None; None; None]).
Proof.
  split; [|split; [exact tabLabels_keys|]].
  { intros locale labels Hl. unfold Gallery.currentLabels.
    by rewrite (get_own _ _ _ Hl). }
  do 3 (split; [reflexivity|]). split.
  - intros locale Hl Hname.
    assert (Gallery.tabLabels !! locale = None) as Hnone.
    { destruct (Gallery.tabLabels !! locale) eqn:H; [|done].
      destruct Hl. apply tabLabels_keys. by eexists. }
    assert (Gallery.currentLabels locale = Gallery.currentLabels "en") as H.
    { unfold Gallery.currentLabels. by rewrite (get_undefined _ _ Hnone Hname). }
    split; [done|]. unfold Gallery.tabs. by rewrite H.
  - intros locale Hname.
    assert (Gallery.currentLabels locale = Js.Inherited locale) as H.
    { unfold Gallery.currentLabels.
      by rewrite (get_inherited _ _ (prototype_name_no_label _ Hname) Hname). }
    split; [done|]. unfold Gallery.tabs. by rewrite H.
Qed.

Lemma tab_labels_fallback_witness :
  Gallery.tabs "fr" = Gallery.tabs "en" /\
  Gallery.currentLabels "toString" = Js.Inherited "toString".
Proof.
  pose proof tab_labels_fallback as (_ & _ & _ & _ & _ & Hother & Hname).
  split.
  - apply (Hother "fr"); rewrite list_elem_of_In; simpl;
      intuition discriminate.
  - apply (Hname "toString"). rewrite list_elem_of_In. simpl. auto 20.
Defined.

(** ** The statically generated project pages *)

Lemma push_all {A B : Type} (f : A -> B) (l : list A) (acc : list B) :
  fold_left (fun params x => params ++ [f x]) l acc = acc ++ List.map f l.
Proof.
  revert acc. induction l as [|x l IH]; intros acc; cbn.
  - by rewrite app_nil_r.
  - by rewrite IH, <- app_assoc.
Qed.

Lemma generateStaticParams_flat (projects : list Content.Project) :
  Scaffold.generateStaticParams projects
  = flat_map
      (fun locale =>
         List.map
           (fun p => {| Scaffold.locale := locale;
                        Scaffold.slug := Content.slug p |})
           projects)
      Scaffold.locales.
Proof.
  unfold Scaffold.generateStaticParams, Scaffold.locales. cbn.
  rewrite !push_all. by rewrite app_nil_r, <- app_assoc.
Qed.

Lemma elem_of_generateStaticParams (projects : list Content.Project) params :
  params ∈ Scaffold.generateStaticParams projects <->
  Scaffold.locale params ∈ Scaffold.locales /\
  exists p, p ∈ projects /\ Content.slug p = Scaffold.slug params.
Proof.
  rewrite generateStaticParams_flat, list_elem_of_In, in_flat_map. split.
  - intros (locale & Hl & Hin). apply in_map_iff in Hin as (p & <- & Hp).
    cbn. split; [by apply list_elem_of_In|].
    exists p. split; [by apply list_elem_of_In | done].
  - intros (Hl & p & Hp & Hs). exists (Scaffold.locale params).
    split; [by apply list_elem_of_In|]. apply in_map_iff. exists p.
    split; [|by apply list_elem_of_In]. destruct params. cbn in *. by subst.
Qed.

Lemma locale_code_not_inherited (locale : string) :
  locale ∈ Scaffold.locales -> locale ∉ Js.prototype_names.
Proof.
  rewrite !list_elem_of_In. cbn.
  intros [<- | [<- | [<- | []]]]; intuition discriminate.
Qed.

(** X17. [generateStaticParams] lists one page per locale and case study,
    [3 * n] in all, every case study in each of the three locales, and
    none of the listed pages ends in not-found: the scaffold page finds a
    case study with the listed slug, renders it when its challenge has an
    entry for the listed locale and raises a TypeError when it has
    none. *)
Theorem static_params_render (projects : list Content.Project) :
  length (Scaffold.generateStaticParams projects) = 3 * length projects /\
  (forall p locale,
      p ∈ projects -> locale ∈ Scaffold.locales ->
      {| Scaffold.locale := locale; Scaffold.slug := Content.slug p |}
      ∈ Scaffold.generateStaticParams projects) /\
  (forall params,
      params ∈ Scaffold.generateStaticParams projects ->
      ScaffoldPage.ProjectPage projects (Scaffold.locale params)
        (Scaffold.slug params) <> Js.Throw Js.NotFoundError /\
      exists q,
        q ∈ projects /\ Content.slug q = Scaffold.slug params /\
        (forall items,
            Content.challenge q !! Scaffold.locale params = Some items ->
            exists view,
              ScaffoldPage.ProjectPage projects (Scaffold.locale params)
                (Scaffold.slug params) = Js.Return view /\
              ScaffoldPage.project view = q /\
              ScaffoldPage.challenge view = items) /\
        (Content.challenge q !! Scaffold.locale params = None ->
         ScaffoldPage.ProjectPage projects (Scaffold.locale params)
           (Scaffold.slug params) = Js.Throw Js.TypeError)).
Proof.
  split; [|split].
  - rewrite generateStaticParams_flat. cbn.
    rewrite !length_app, !length_map. cbn. lia.
  - intros p locale Hp Hl. apply elem_of_generateStaticParams. cbn.
    split; [done|]. by exists p.
  - intros params (Hl & p & Hp & Hs)%elem_of_generateStaticParams.
    destruct (page_found projects _ p Hp Hs) as (q & Hfind & Hq & Hqs & _).
    unfold ScaffoldPage.ProjectPage. rewrite Hfind. split.
    + by destruct (Js.get (Content.challenge q) (Scaffold.locale params)).
    + exists q. repeat split; try done.
      * intros items Hitems. rewrite (get_own _ _ _ Hitems). by eexists.
      * intros Hnone.
        by rewrite (get_undefined _ _ Hnone
                      (locale_code_not_inherited _ Hl)).
Qed.

Lemma static_params_render_witness :
  ScaffoldPage.ProjectPage Sample.projects "pt" "logo"
  <> Js.Throw Js.NotFoundError.
Proof.
  apply (proj2 (proj2 (static_params_render Sample.projects))
           {| Scaffold.locale := "pt"; Scaffold.slug := "logo" |}).
  apply list_elem_of_In. vm_compute. auto 10.
Defined.

Lemma string_length_append (a b : string) :
  String.length (a ++ b) = String.length a + String.length b.
Proof. induction a as [|c a IH]; simpl; [done | by f_equal]. Qed.

(** X18. The scaffold's [generateMetadata] never fails.  It answers with
    the title "Project Not Found" exactly when the scaffold page ends in
    not-found for the same slug.  For a slug that is found the title is
    the case study's title for the locale string followed by the site's
    name, and the description its tagline; the title starts with
    "undefined" when the case study has no title under that string and
    the string is no name inherited from [Object.prototype], and with the
    text of the inherited value when it is one. *)
Theorem scaffold_metadata (describe : string -> string)
    (projects : list Content.Project) (params : Scaffold.Params) :
  (Scaffold.title (Scaffold.generateMetadata describe projects params)
   = "Project Not Found" <->
   ScaffoldPage.ProjectPage projects (Scaffold.locale params)
     (Scaffold.slug params) = Js.Throw Js.NotFoundError) /\
  (forall p,
      p ∈ projects -> Content.slug p = Scaffold.slug params ->
      exists q,
        q ∈ projects /\ Content.slug q = Scaffold.slug params /\
        (NoDup (Content.slug <$> projects) -> q = p) /\
        Scaffold.title (Scaffold.generateMetadata describe projects params)
        = (Scaffold.interpolate describe
             (Js.get (Content.title q) (Scaffold.locale params))
           ++ " | NewSite by Carolina Arango")%string /\
        Scaffold.description
          (Scaffold.generateMetadata describe projects params)
        = Js.get (Content.tagline q) (Scaffold.locale params) /\
        (Content.title q !! Scaffold.locale params = None ->
         (Scaffold.locale params ∉ Js.prototype_names ->
          Scaffold.title
            (Scaffold.generateMetadata describe projects params)
          = "undefined | NewSite by Carolina Arango") /\
         (Scaffold.locale params ∈ Js.prototype_names ->
          Scaffold.title
            (Scaffold.generateMetadata describe projects params)
          = (describe (Scaffold.locale params)
             ++ " | NewSite by Carolina Arango")%string))).
Proof.
  unfold Scaffold.generateMetadata, ScaffoldPage.ProjectPage. split.
  - destruct (Js.find _ projects) as [q|];
      cbn [Scaffold.title Scaffold.description]; [|done].
    split.
    + intros H. apply (f_equal String.length) in H.
      rewrite string_length_append in H. cbn in H. lia.
    + by destruct (Js.get (Content.challenge q) (Scaffold.locale params)).
  - intros p Hp Hs.
    destruct (page_found projects _ p Hp Hs) as (q & -> & Hq & Hqs & Hu).
    cbn [Scaffold.title Scaffold.description].
    exists q. do 5 (split; [done|]). intros Hnone. split; intros Hname.
    + by rewrite (get_undefined _ _ Hnone Hname).
    + by rewrite (get_inherited _ _ Hnone Hname).
Qed.

Lemma sample_slugs_unique : NoDup (Content.slug <$> Sample.projects).
Proof.
  repeat constructor; rewrite list_elem_of_In; simpl; intuition discriminate.
Qed.

Lemma scaffold_metadata_witness :
  Scaffold.title
    (Scaffold.generateMetadata (fun name => name) Sample.projects
       {| Scaffold.locale := "pt"; Scaffold.slug := "casa-del-mar" |})
  = "undefined | NewSite by Carolina Arango".
Proof.
  destruct (proj2 (scaffold_metadata (fun name => name) Sample.projects
                     {| Scaffold.locale := "pt";
                        Scaffold.slug := "casa-del-mar" |}) Sample.casa)
    as (q & _ & _ & Hu & _ & _ & Hundefined).
  - apply list_elem_of_In. simpl. auto.
  - reflexivity.
  - rewrite (Hu sample_slugs_unique) in Hundefined.
    apply Hundefined; [reflexivity|].
    cbn. rewrite list_elem_of_In. simpl. intuition discriminate.
Defined.

(** ** The sitemap *)

(** X19. The sitemap lists the three home pages and then, in the order of
    [generateStaticParams], the address of every statically generated
    project page; it has [3 + 3 * n] entries, all stamped with the date of
    the build. *)
Theorem sitemap_routes (projects : list Content.Project) (currentDate : N) :
  List.map Sitemap.url (Sitemap.sitemap projects currentDate)
  = List.map (fun locale => (Sitemap.baseUrl ++ "/" ++ locale)%string)
      Sitemap.locales
    ++ List.map Spec.route (Scaffold.generateStaticParams projects) /\
  length (Sitemap.sitemap projects currentDate) = 3 + 3 * length projects /\
  Forall (fun e => Sitemap.lastModified e = currentDate)
    (Sitemap.sitemap projects currentDate).
Proof.
  rewrite generateStaticParams_flat.
  unfold Sitemap.sitemap, Sitemap.locales, Scaffold.locales. cbn [flat_map].
  split; [|split].
  - rewrite !app_nil_r, !map_app, !List.map_map. done.
  - rewrite !length_app, !length_map. cbn. lia.
  - rewrite !Forall_app. repeat split;
      try (apply Forall_forall; intros e He;
           apply list_elem_of_In, in_map_iff in He as (p & <- & _); done).
    all: repeat constructor.
Qed.

(** ** The resolver and the layout *)

Lemma resolved_locale (input : option string) :
  Request.locale (Request.getRequestConfig input) ∈ Request.locales.
Proof.
  rewrite getRequestConfig_locale. destruct input as [l|]; [|by left].
  destruct (Js.truthy_string l); cbn [negb orb]; [|by left].
  destruct (Js.includes Request.locales l) eqn:Hi; cbn [negb]; [|by left].
  by apply includes_elem_of.
Qed.

(** X20. Whatever the request, the locale that [getRequestConfig] resolves
    passes the guard of the layout, and resolving it again changes
    nothing; the guard ends in not-found for every other string. *)
Theorem resolved_locale_passes_layout (input : option string) :
  let resolved := Request.locale (Request.getRequestConfig input) in
  Layout.LocaleLayout resolved = Js.Return resolved /\
  Request.locale (Request.getRequestConfig (Some resolved)) = resolved /\
  forall l,
    Layout.LocaleLayout l = Js.Return l \/
    (Layout.LocaleLayout l = Js.Throw Js.NotFoundError /\
     Request.locale (Request.getRequestConfig (Some l)) <> l).
Proof.
  cbn zeta. pose proof (resolved_locale input) as Hr.
  split; [|split].
  - unfold Layout.LocaleLayout.
    by rewrite (proj2 (includes_elem_of Layout.locales _) Hr).
  - rewrite (getRequestConfig_locale (Some _)).
    rewrite (proj2 (includes_elem_of _ _) Hr).
    assert (Request.locale (Request.getRequestConfig input) <> "") as Hne.
    { intros H. rewrite H in Hr. apply list_elem_of_In in Hr. cbn in Hr.
      intuition discriminate. }
    apply truthy_string_nonempty in Hne. by rewrite Hne.
  - intros l. unfold Layout.LocaleLayout.
    destruct (Js.includes Layout.locales l) eqn:Hi; cbn [negb]; [by left|].
    right. split; [done|]. intros Heq.
    pose proof (resolved_locale (Some l)) as Hl. rewrite Heq in Hl.
    apply (includes_elem_of Layout.locales) in Hl. congruence.
Qed.

(** X21. The request never chooses the messages file: whatever locale is
    asked for, the module that [getRequestConfig] imports is the one of a
    supported locale, [messages/es.json]. *)
Theorem messages_module_fixed (input : option string) :
  Request.messages (Request.getRequestConfig input)
  = "../../messages/es.json".
Proof.
  pose proof (resolved_locale input) as Hr.
  apply list_elem_of_In in Hr. cbn in Hr. destruct Hr as [Hr | []].
  unfold Request.getRequestConfig in *. cbn in *. by rewrite <- Hr.
Qed.

(** ** The layout's metadata *)

(** X22. [generateMetadata] of the layout raises nothing but a TypeError,
    and raises it exactly when what it settles on has no [meta].  An entry
    of the site content under the locale string is used as it is, so a
    string such as ["site"] that names an entry without [meta] fails; a
    string under which the site content has nothing falls back to the
    [es] bundle, unless it is a name inherited from [Object.prototype],
    such as ["toString"]: the inherited value is truthy, the fallback is
    not taken, and the TypeError comes although the [es] bundle is
    complete. *)
Theorem layout_metadata_failure
    (siteContent : gmap string Content.Bundle) (locale : string) :
  (forall e,
      Layout.generateMetadata siteContent locale = Js.Throw e ->
      e = Js.TypeError) /\
  (forall entry,
      siteContent !! locale = Some entry ->
      Content.meta entry = None ->
      Layout.generateMetadata siteContent locale = Js.Throw Js.TypeError) /\
  (forall entry m,
      siteContent !! locale = Some entry ->
      Content.meta entry = Some m ->
      exists md,
        Layout.generateMetadata siteContent locale = Js.Return md /\
        Layout.title_default md = Content.meta_title m) /\
  (forall es m,
      siteContent !! locale = None ->
      locale ∉ Js.prototype_names ->
      siteContent !! "es" = Some es ->
      Content.meta es = Some m ->
      exists md,
        Layout.generateMetadata siteContent locale = Js.Return md /\
        Layout.title_default md = Content.meta_title m /\
        Layout.canonical md = ("/" ++ locale)%string) /\
  (siteContent !! locale = None ->
   locale ∈ Js.prototype_names ->
   Layout.localeData siteContent locale = Js.Inherited locale /\
   Layout.generateMetadata siteContent locale = Js.Throw Js.TypeError).
Proof.
  unfold Layout.generateMetadata, Layout.localeData.
  split; [|split; [|split; [|split]]].
  - intros e.
    destruct (Js.por _ _ _) as [data| |]; [|by intros [= <-]..].
    destruct (Content.meta data); [done | by intros [= <-]].
  - intros entry Hl Hm. rewrite (get_own _ _ _ Hl). cbn. by rewrite Hm.
  - intros entry m Hl Hm. rewrite (get_own _ _ _ Hl). cbn. rewrite Hm.
    by eexists.
  - intros es m Hl Hname Hes Hm.
    rewrite (get_undefined _ _ Hl Hname), (get_own _ _ _ Hes). cbn.
    rewrite Hm. by eexists.
  - intros Hl Hname. by rewrite (get_inherited _ _ Hl Hname).
Qed.

Lemma layout_metadata_failure_witness :
  Layout.generateMetadata Sample.siteContent "site" = Js.Throw Js.TypeError /\
  Layout.generateMetadata Sample.siteContent "toString"
  = Js.Throw Js.TypeError.
Proof.
  split.
  - apply (proj1 (proj2 (layout_metadata_failure Sample.siteContent "site"))
             {| Content.meta := None; Content.about := None |});
      reflexivity.
  - apply (proj2 (proj2 (proj2 (proj2
             (layout_metadata_failure Sample.siteContent "toString"))))).
    + reflexivity.
    + rewrite list_elem_of_In. simpl. auto 20.
Defined.

(** ** The category filter, composed *)

Lemma filter_filter_comm {A : Type} (f g : A -> bool) (l : list A) :
  List.filter f (List.filter g l) = List.filter g (List.filter f l).
Proof.
  induction l as [|x l IH]; [done|]. cbn.
  destruct (f x) eqn:Hf, (g x) eqn:Hg; cbn; rewrite ?Hf, ?Hg, IH; done.
Qed.

Lemma filter_filter_and {A : Type} (f g : A -> bool) (l : list A) :
  List.filter f (List.filter g l) = List.filter (fun x => g x && f x) l.
Proof.
  induction l as [|x l IH]; [done|]. cbn.
  destruct (g x) eqn:Hg; cbn; [|done].
  destruct (f x); by rewrite IH.
Qed.

Lemma filtered_as_filter (projects : list Content.Project) c :
  exists f,
    (forall l, ProjectsSection.filtered l c = List.filter f l) /\
    (forall p, f p = true -> Content.featured p = true).
Proof.
  destruct c;
    (eexists; split; [intros l; reflexivity|]);
    cbn; intros p; rewrite ?andb_true_iff; tauto.
Qed.

(** X23. A category only narrows the default view: the case studies shown
    for a category are a subsequence of those shown for "all", and
    choosing the category on the "all" view gives what choosing it on the
    whole list gives. *)
Theorem category_refines_all (projects : list Content.Project)
    (c : ProjectsSection.Category) :
  ProjectsSection.filtered projects c
  `sublist_of` ProjectsSection.filtered projects ProjectsSection.all /\
  ProjectsSection.filtered
    (ProjectsSection.filtered projects ProjectsSection.all) c
  = ProjectsSection.filtered projects c.
Proof.
  destruct (filtered_as_filter projects c) as (f & Hf & Hfeat).
  assert (ProjectsSection.filtered
            (ProjectsSection.filtered projects ProjectsSection.all) c
          = ProjectsSection.filtered projects c) as Heq.
  { rewrite filtered_all, !Hf, filter_filter_and.
    clear Hf. induction projects as [|p projects IH]; [done|]. cbn.
    destruct (f p) eqn:Hp.
    - rewrite (Hfeat p Hp). cbn. by rewrite IH.
    - rewrite andb_false_r. exact IH. }
  split; [|done]. rewrite <- Heq, Hf.
  apply (filter_subsequence_where f).
Qed.

(** X24. Choosing a category twice is choosing it once, and the order in
    which two categories are applied does not matter. *)
Theorem category_filters_compose (projects : list Content.Project)
    (c1 c2 : ProjectsSection.Category) :
  ProjectsSection.filtered (ProjectsSection.filtered projects c1) c1
  = ProjectsSection.filtered projects c1 /\
  ProjectsSection.filtered (ProjectsSection.filtered projects c1) c2
  = ProjectsSection.filtered (ProjectsSection.filtered projects c2) c1.
Proof.
  destruct (filtered_as_filter projects c1) as (f1 & Hf1 & _).
  destruct (filtered_as_filter projects c2) as (f2 & Hf2 & _).
  rewrite !Hf1, !Hf2. split; [apply filter_twice | apply filter_filter_comm].
Qed.
